(** * MHF patch server: manifest builder, conditional fetch, admission gate

    A shallow embedding of [main.go]: the walk over the game folder that
    builds the checksum manifest ([loadFolderData]), the conditional
    [/check] handler ([checkHandler]) and the channel-based admission gate
    ([concurrencyLimiter]), with the parts of the Go standard library they
    call ([crypto/sha256], [encoding/hex], [strings], [path/filepath],
    [net/http]) modelled next to them. *)

From Stdlib Require Import ZArith List Lia Ascii.
From stdpp Require Import base list strings gmap sorting relations.

Local Open Scope Z_scope.

(* ===================================================================== *)
(** * Bytes and 32-bit words *)
(* ===================================================================== *)

Abbreviation byte := Byte.byte.

Definition byte_to_Z (b : byte) : Z := Z.of_N (Byte.to_N b).

(** [byte(z)]: the low eight bits of [z]. *)
Definition byte_of_Z (z : Z) : byte :=
  match Byte.of_N (Z.to_N (z mod 256)) with
  | Some b => b
  | None => Byte.x00
  end.

(** [uint32] arithmetic wraps around modulo [2^32]. *)
Definition u32 (z : Z) : Z := z mod 2 ^ 32.

Definition add32 (a b : Z) : Z := u32 (a + b).

(** [bits.RotateLeft32(x, -n)] for [0 < n < 32]. *)
Definition rotr (x n : Z) : Z :=
  u32 (Z.lor (Z.shiftr x n) (Z.shiftl x (32 - n))).

(** [^x] on a [uint32]. *)
Definition not32 (x : Z) : Z := Z.lxor x (2 ^ 32 - 1).

(** [binary.BigEndian.PutUint32] and [PutUint64]. *)
Definition be32 (w : Z) : list byte :=
  [byte_of_Z (Z.shiftr w 24); byte_of_Z (Z.shiftr w 16);
   byte_of_Z (Z.shiftr w 8); byte_of_Z w].

Definition be64 (w : Z) : list byte :=
  be32 (Z.shiftr w 32) ++ be32 w.

(* ===================================================================== *)
(** * [crypto/sha256] *)
(* ===================================================================== *)

Module sha256.

(** The eight working words [h [8]uint32] of a digest. *)
Record regs : Type := Regs {
  r0 : Z; r1 : Z; r2 : Z; r3 : Z; r4 : Z; r5 : Z; r6 : Z; r7 : Z
}.

Definition chunk : nat := 64.
Definition Size : nat := 32.

Definition init : regs :=
  Regs 0x6A09E667 0xBB67AE85 0x3C6EF372 0xA54FF53A
       0x510E527F 0x9B05688C 0x1F83D9AB 0x5BE0CD19.

Definition _K : list Z :=
  [0x428A2F98; 0x71374491; 0xB5C0FBCF; 0xE9B5DBA5;
   0x3956C25B; 0x59F111F1; 0x923F82A4; 0xAB1C5ED5;
   0xD807AA98; 0x12835B01; 0x243185BE; 0x550C7DC3;
   0x72BE5D74; 0x80DEB1FE; 0x9BDC06A7; 0xC19BF174;
   0xE49B69C1; 0xEFBE4786; 0x0FC19DC6; 0x240CA1CC;
   0x2DE92C6F; 0x4A7484AA; 0x5CB0A9DC; 0x76F988DA;
   0x983E5152; 0xA831C66D; 0xB00327C8; 0xBF597FC7;
   0xC6E00BF3; 0xD5A79147; 0x06CA6351; 0x14292967;
   0x27B70A85; 0x2E1B2138; 0x4D2C6DFC; 0x53380D13;
   0x650A7354; 0x766A0ABB; 0x81C2C92E; 0x92722C85;
   0xA2BFE8A1; 0xA81A664B; 0xC24B8B70; 0xC76C51A3;
   0xD192E819; 0xD6990624; 0xF40E3585; 0x106AA070;
   0x19A4C116; 0x1E376C08; 0x2748774C; 0x34B0BCB5;
   0x391C0CB3; 0x4ED8AA4A; 0x5B9CCA4F; 0x682E6FF3;
   0x748F82EE; 0x78A5636F; 0x84C87814; 0x8CC70208;
   0x90BEFFFA; 0xA4506CEB; 0xBEF9A3F7; 0xC67178F2].

(** [w[i] = uint32(p[j])<<24 | uint32(p[j+1])<<16 | uint32(p[j+2])<<8 |
    uint32(p[j+3])] for the sixteen words of one chunk. *)
Fixpoint load_words (n : nat) (p : list byte) : list Z :=
  match n with
  | O => []
  | S n' =>
      match p with
      | b0 :: b1 :: b2 :: b3 :: p' =>
          Z.lor (Z.lor (Z.lor (Z.shiftl (byte_to_Z b0) 24)
                              (Z.shiftl (byte_to_Z b1) 16))
                       (Z.shiftl (byte_to_Z b2) 8))
                (byte_to_Z b3)
          :: load_words n' p'
      | _ => []
      end
  end.

Definition word_at (w : list Z) (i : nat) : Z := nth i w 0.

(** The message schedule: [n] more words after the ones in [w]. *)
Fixpoint extend (n : nat) (w : list Z) : list Z :=
  match n with
  | O => w
  | S n' =>
      let i := length w in
      let v1 := word_at w (i - 2) in
      let t1 := Z.lxor (Z.lxor (rotr v1 17) (rotr v1 19)) (Z.shiftr v1 10) in
      let v2 := word_at w (i - 15) in
      let t2 := Z.lxor (Z.lxor (rotr v2 7) (rotr v2 18)) (Z.shiftr v2 3) in
      extend n'
        (w ++ [add32 (add32 (add32 t1 (word_at w (i - 7))) t2)
                     (word_at w (i - 16))])
  end.

(** One round of the compression loop. *)
Definition round (s : regs) (kw : Z * Z) : regs :=
  let '(Regs a b c d e f g h) := s in
  let t1 :=
    add32 (add32 (add32 (add32 h
      (Z.lxor (Z.lxor (rotr e 6) (rotr e 11)) (rotr e 25)))
      (Z.lxor (Z.land e f) (Z.land (not32 e) g)))
      (fst kw)) (snd kw) in
  let t2 :=
    add32 (Z.lxor (Z.lxor (rotr a 2) (rotr a 13)) (rotr a 22))
          (Z.lxor (Z.lxor (Z.land a b) (Z.land a c)) (Z.land b c)) in
  Regs (add32 t1 t2) a b c (add32 d t1) e f g.

(** [blockGeneric] on exactly one chunk. *)
Definition block1 (hh : regs) (p : list byte) : regs :=
  let w := extend 48 (load_words 16 p) in
  let '(Regs a b c d e f g h) := fold_left round (combine _K w) hh in
  Regs (add32 (r0 hh) a) (add32 (r1 hh) b) (add32 (r2 hh) c)
       (add32 (r3 hh) d) (add32 (r4 hh) e) (add32 (r5 hh) f)
       (add32 (r6 hh) g) (add32 (r7 hh) h).

(** [for len(p) >= chunk { ...; p = p[chunk:] }]: the chunks consumed and
    the tail left over.  [fuel] bounds the number of iterations. *)
Fixpoint block (fuel : nat) (hh : regs) (p : list byte) : regs * list byte :=
  match fuel with
  | O => (hh, p)
  | S fuel' =>
      if (chunk <=? length p)%nat
      then block fuel' (block1 hh (take chunk p)) (drop chunk p)
      else (hh, p)
  end.

(** [type digest struct { h [8]uint32; x [chunk]byte; nx int; len uint64 }];
    [x] holds the [nx] buffered bytes. *)
Record digest : Type := Digest {
  digest_h : regs;
  digest_x : list byte;
  digest_len : Z
}.

Definition New : digest := Digest init [] 0.

(** [func (d *digest) Write(p []byte)]: buffered bytes and [p] go through
    [block] chunk by chunk, the incomplete tail stays in [x]. *)
Definition Write (d : digest) (p : list byte) : digest :=
  let data := digest_x d ++ p in
  let '(hh, rest) := block (length data) (digest_h d) data in
  Digest hh rest ((digest_len d + Z.of_nat (length p)) mod 2 ^ 64).

(** The padding of [checkSum]: a one bit, zeros up to 56 bytes mod 64, and
    the length in bits. *)
Definition padding (len : Z) : list byte :=
  let t := if len mod 64 <? 56 then 56 - len mod 64
           else 64 + 56 - len mod 64 in
  Byte.x80 :: replicate (Z.to_nat t - 1) Byte.x00
    ++ be64 ((len * 8) mod 2 ^ 64).

Definition checkSum (d : digest) : list byte :=
  let d' := Write d (padding (digest_len d)) in
  let '(Regs a b c d0 e f g h) := digest_h d' in
  be32 a ++ be32 b ++ be32 c ++ be32 d0 ++
  be32 e ++ be32 f ++ be32 g ++ be32 h.

(** [func (d *digest) Sum(in []byte) []byte] works on a copy of [d]. *)
Definition Sum (d : digest) (b : list byte) : list byte := b ++ checkSum d.

(** [func Sum256(data []byte) [Size]byte]. *)
Definition Sum256 (data : list byte) : list byte := checkSum (Write New data).

End sha256.

(* ===================================================================== *)
(** * [encoding/hex] *)
(* ===================================================================== *)

Module hex.

Definition hextable : string := "0123456789abcdef".

Definition digit (n : Z) : ascii :=
  match String.get (Z.to_nat n) hextable with
  | Some c => c
  | None => "0"%char
  end.

(** [dst[j] = hextable[v>>4]; dst[j+1] = hextable[v&0x0f]]. *)
Fixpoint EncodeToString (src : list byte) : string :=
  match src with
  | [] => EmptyString
  | v :: src' =>
      String (digit (Z.shiftr (byte_to_Z v) 4))
        (String (digit (Z.land (byte_to_Z v) 0x0f)) (EncodeToString src'))
  end.

End hex.

(* ===================================================================== *)
(** * [strings] *)
(* ===================================================================== *)

Module strings.

(** [s[n:]]. *)
Fixpoint from (n : nat) (s : string) : string :=
  match n, s with
  | O, _ => s
  | S n', String _ s' => from n' s'
  | S _, EmptyString => EmptyString
  end.

(** [len(s) >= len(prefix) && s[:len(prefix)] == prefix]. *)
Definition HasPrefix (s prefix : string) : bool := String.prefix prefix s.

(** [len(s) >= len(suffix) && s[len(s)-len(suffix):] == suffix]. *)
Definition HasSuffix (s suffix : string) : bool :=
  (String.length suffix <=? String.length s)%nat &&
  String.eqb (from (String.length s - String.length suffix) s) suffix.

(** [if HasPrefix(s, prefix) { return s[len(prefix):] }; return s]. *)
Definition TrimPrefix (s prefix : string) : string :=
  if HasPrefix s prefix then from (String.length prefix) s else s.

(** Left-to-right replacement of the non-overlapping occurrences of [old];
    [skip] counts the bytes of a matched occurrence still to be dropped. *)
Fixpoint replace_from (old new : string) (skip : nat) (s : string) : string :=
  match s with
  | EmptyString => EmptyString
  | String c s' =>
      match skip with
      | S k => replace_from old new k s'
      | O =>
          if String.prefix old s
          then new +:+ replace_from old new (String.length old - 1) s'
          else String c (replace_from old new 0 s')
      end
  end.

(** [strings.ReplaceAll(s, old, new)] for a non-empty [old] (the program
    passes a one-byte [old]); with an empty [old] Go leaves [s] unchanged
    only when [new] is empty too, a case that is not modelled. *)
Definition ReplaceAll (s old new : string) : string :=
  match old with
  | EmptyString => s
  | _ => replace_from old new 0 s
  end.

End strings.

(** The bytes the program writes between the fields of a line, and the
    quote of a validator. *)
Definition tab : string := String "009"%char EmptyString.
Definition newline : string := String "010"%char EmptyString.
Definition dquote : string := String "034"%char EmptyString.
Definition backslash : string := String "092"%char EmptyString.
Definition slash : string := "/".

(* ===================================================================== *)
(** * Errors, outcomes and the state monad of the start-up code *)
(* ===================================================================== *)

(** Go [error] values: ordinary I/O errors and the two sentinels of
    [io/fs]. *)
Inductive error : Type :=
| Err (msg : string)
| SkipDir
| SkipAll.

Definition is_SkipDir (e : error) : bool :=
  match e with SkipDir => true | _ => false end.

Definition is_SkipAll (e : error) : bool :=
  match e with SkipAll => true | _ => false end.

(** How a computation ends: it returns, [log.Fatal] ends the process, or a
    run-time panic does. *)
Inductive outcome (A : Type) : Type :=
| Done (a : A)
| Fatal (e : error)
| Panic.

Arguments Done {A} a.
Arguments Fatal {A} e.
Arguments Panic {A}.

Definition M (S A : Type) : Type := S -> outcome (A * S).

Definition ret {S A : Type} (a : A) : M S A := fun s => Done (a, s).

Definition bind {S A B : Type} (m : M S A) (k : A -> M S B) : M S B :=
  fun s =>
    match m s with
    | Done (a, s') => k a s'
    | Fatal e => Fatal e
    | Panic => Panic
    end.

Definition modify {S : Type} (f : S -> S) : M S unit :=
  fun s => Done (tt, f s).

(** [log.Fatal(err)]: print and [os.Exit(1)]. *)
Definition log_Fatal {S A : Type} (e : error) : M S A := fun _ => Fatal e.

Definition panic {S A : Type} : M S A := fun _ => Panic.

Notation "'let*' x := m 'in' k" := (bind m (fun x => k))
  (at level 10, x name, m at level 100, k at level 200, only parsing).

(* ===================================================================== *)
(** * The file system and [path/filepath] *)
(* ===================================================================== *)

(** What opening and reading a non-directory entry gives: [os.Open] fails,
    or the file opens and reading yields [data] followed by end of file
    ([rerr = None]) or by a read error. *)
Inductive file_outcome : Type :=
| OpenError (e : error)
| Opened (data : list byte) (rerr : option error).

(** A directory entry with what lies below it.  A [Dir] lists its entries
    in the order the operating system enumerates them; [rderr] is the error
    reading the directory ends with, if any. *)
#[local] Unset Elimination Schemes.
Inductive node : Type :=
| File (o : file_outcome)
| Dir (entries : list (string * node)) (rderr : option error).
#[local] Set Elimination Schemes.

(** [os.Lstat(root)]. *)
Inductive fsroot : Type :=
| Missing (e : error)
| Present (n : node).

(** [d.IsDir()]. *)
Definition IsDir (d : node) : bool :=
  match d with Dir _ _ => true | File _ => false end.

Module filepath.

Inductive GOOS : Type := unix | windows.

Definition Separator (os : GOOS) : string :=
  match os with unix => slash | windows => backslash end.

(** [filepath.Join(path, name)] as [walkDir] calls it: [path] is clean (it
    comes from [filepath.Abs] or an earlier [Join]) and [name] is one
    directory-entry name, so [Clean] only has to avoid doubling the
    separator a root path ends with. *)
Definition Join (os : GOOS) (path name : string) : string :=
  match path with
  | EmptyString => name
  | _ =>
      if strings.HasSuffix path (Separator os) then path +:+ name
      else path +:+ Separator os +:+ name
  end.

(** Directory entries compare by file name, byte by byte. *)
Definition name_le (a b : string * node) : Prop :=
  String.le (fst a) (fst b).

#[global] Instance name_le_dec (a b : string * node) : Decision (name_le a b).
Proof. unfold name_le. apply _. Defined.

(** The tree as [os.ReadDir] shows it: every listing sorted by file
    name. *)
Fixpoint sorted_view (d : node) : node :=
  match d with
  | File o => File o
  | Dir entries rderr =>
      Dir (merge_sort name_le
             (map (fun nc => (fst nc, sorted_view (snd nc))) entries))
          rderr
  end.

Section walk.

Context {S : Type}.

(** [fs.WalkDirFunc]; the entry is [nil] when [Lstat] of the root failed. *)
Definition WalkDirFunc : Type :=
  string -> option node -> option error -> M S (option error).

Variable os : GOOS.
Variable fn : WalkDirFunc.

(** [for _, d1 := range dirs { path1 := filepath.Join(path, d1.Name());
    if err := walkDir(path1, d1, walkDirFn); err != nil { ... } }]. *)
Definition range_dirs (walk : string -> node -> M S (option error))
    (path : string) : list (string * node) -> M S (option error) :=
  fix range (l : list (string * node)) : M S (option error) :=
    match l with
    | [] => ret None
    | (name, d1) :: l' =>
        let* err1 := walk (Join os path name) d1 in
        match err1 with
        | Some e => ret (if is_SkipDir e then None else Some e)
        | None => range l'
        end
    end.

(** [walkDir] over an entry of the sorted view. *)
Fixpoint walkDir (path : string) (d : node) {struct d} : M S (option error) :=
  let* err := fn path (Some d) None in
  match d with
  | File _ => ret err
  | Dir dirs rderr =>
      match err with
      | Some e => ret (if is_SkipDir e then None else Some e)
      | None =>
          let* err2 := match rderr with
                  | Some e => fn path (Some d) (Some e)
                  | None => ret None
                  end in
          match err2 with
          | Some e => ret (if is_SkipDir e then None else Some e)
          | None => range_dirs walkDir path dirs
          end
      end
  end.

(** [filepath.WalkDir(root, fn)]. *)
Definition WalkDir (root : string) (fs : fsroot) : M S (option error) :=
  let* err := match fs with
         | Missing e => fn root None (Some e)
         | Present n => walkDir root (sorted_view n)
         end in
  match err with
  | Some e => ret (if is_SkipDir e || is_SkipAll e then None else Some e)
  | None => ret None
  end.

End walk.

End filepath.

(** [os.Open] on the entry a path names and [io.Copy] from the opened
    file into a hasher. *)
Definition os_Open (d : node) : file_outcome :=
  match d with
  | File o => o
  | Dir _ _ => Opened [] (Some (Err "is a directory"))
  end.

Definition io_Copy (dst : sha256.digest) (data : list byte)
    (rerr : option error) : sha256.digest * option error :=
  (sha256.Write dst data, rerr).

(* ===================================================================== *)
(** * The program: configuration and manifest *)
(* ===================================================================== *)

Record Config : Type := {
  PatchPort : Z;
  ImagePort : Z;
  GameFolder : string;
  ImageFolder : string;
  Force : bool;
  MaxClients : Z
}.

Record DirData : Type := {
  ChecksumHeader : string;
  ChecksumsBody : list byte
}.

(** The variables the walk callback updates: the global [folderData] and
    the [hasher] of [loadFolderData] it closes over. *)
Record walk_state : Type := {
  folderData : DirData;
  hasher : sha256.digest
}.

Definition checksum_of (data : list byte) : string :=
  hex.EncodeToString (sha256.Sum (sha256.Write sha256.New data) []).

Definition rel_of (config : Config) (path : string) : string :=
  strings.ReplaceAll (strings.TrimPrefix path (GameFolder config))
                     backslash slash.

(** [fmt.Sprintf("%s\t%s\n", checksum, rel)]. *)
Definition Sprintf_line (checksum rel : string) : string :=
  checksum +:+ tab +:+ rel +:+ newline.

Definition append_line (line : list byte) (st : walk_state) : walk_state :=
  {| folderData :=
       {| ChecksumHeader := ChecksumHeader (folderData st);
          ChecksumsBody := ChecksumsBody (folderData st) ++ line |};
     hasher := sha256.Write (hasher st) line |}.

(** The callback [loadFolderData] passes to [filepath.WalkDir]. *)
Definition visit (config : Config) : filepath.WalkDirFunc (S := walk_state) :=
  fun path d err =>
    match err with
    | Some e => log_Fatal e
    | None =>
        match d with
        | None => panic
        | Some d =>
            if IsDir d || strings.HasSuffix path ".gitkeep" then ret None
            else
              match os_Open d with
              | OpenError e => log_Fatal e
              | Opened data rerr =>
                  let '(fileHasher, cerr) := io_Copy sha256.New data rerr in
                  match cerr with
                  | Some e => log_Fatal e
                  | None =>
                      let checksum :=
                        hex.EncodeToString (sha256.Sum fileHasher []) in
                      let rel := rel_of config path in
                      let line :=
                        String.list_byte_of_string
                          (Sprintf_line checksum rel) in
                      let* u := modify (append_line line) in
                      ret None
                  end
              end
        end
    end.

Definition loadFolderData (os : filepath.GOOS) (config : Config)
    (fs : fsroot) : M DirData unit :=
  fun folderData0 =>
    match filepath.WalkDir os (visit config) (GameFolder config) fs
            {| folderData := folderData0; hasher := sha256.New |} with
    | Done (Some e, _) => Fatal e
    | Done (None, st) =>
        Done (tt,
              {| ChecksumHeader :=
                   dquote +:+ hex.EncodeToString (sha256.Sum (hasher st) [])
                          +:+ dquote;
                 ChecksumsBody := ChecksumsBody (folderData st) |})
    | Fatal e => Fatal e
    | Panic => Panic
    end.

(** The zero value of the package-level [folderData]. *)
Definition folderData_zero : DirData :=
  {| ChecksumHeader := EmptyString; ChecksumsBody := [] |}.

(** What [main] has become once start-up is over: the process has exited
    through [log.Fatal], has crashed, or serves requests from the manifest
    it built. *)
Inductive process : Type :=
| Exited (e : error)
| Crashed
| Listening (folderData : DirData).

(** [main] up to the point where the listeners start: [loadFolderData]
    runs once, on the zero value of [folderData]. *)
Definition main (os : filepath.GOOS) (config : Config) (fs : fsroot)
    : process :=
  match loadFolderData os config fs folderData_zero with
  | Done (_, fd) => Listening fd
  | Fatal e => Exited e
  | Panic => Crashed
  end.

(* ===================================================================== *)
(** * [net/http]: headers, requests, response writers *)
(* ===================================================================== *)

Module http.

Definition StatusOK : Z := 200.
Definition StatusNoContent : Z := 204.
Definition StatusNotModified : Z := 304.

Definition is_lower (c : ascii) : bool :=
  (97 <=? nat_of_ascii c)%nat && (nat_of_ascii c <=? 122)%nat.

Definition is_upper (c : ascii) : bool :=
  (65 <=? nat_of_ascii c)%nat && (nat_of_ascii c <=? 90)%nat.

Definition is_digit (c : ascii) : bool :=
  (48 <=? nat_of_ascii c)%nat && (nat_of_ascii c <=? 57)%nat.

Definition memb (c : ascii) (s : string) : bool :=
  existsb (Ascii.eqb c) (String.list_ascii_of_string s).

(** The bytes of an RFC 7230 token. *)
Definition validHeaderFieldByte (c : ascii) : bool :=
  is_lower c || is_upper c || is_digit c || memb c "!#$%&'*+-.^_`|~".

(** Upper case for the first letter and after each dash, lower case
    elsewhere. *)
Fixpoint canonical (upper : bool) (s : string) : string :=
  match s with
  | EmptyString => EmptyString
  | String c s' =>
      let c' :=
        if upper && is_lower c then ascii_of_nat (nat_of_ascii c - 32)
        else if negb upper && is_upper c
             then ascii_of_nat (nat_of_ascii c + 32)
             else c in
      String c' (canonical (Ascii.eqb c' "-") s')
  end.

(** [textproto.CanonicalMIMEHeaderKey]: a key with a byte outside the
    token alphabet is returned unchanged. *)
Definition CanonicalMIMEHeaderKey (s : string) : string :=
  if forallb validHeaderFieldByte (String.list_ascii_of_string s)
  then canonical true s
  else s.

(** [type Header map[string][]string]. *)
Abbreviation Header := (gmap string (list string)).

(** [h.Get(key)]: the first value under the canonical key, or the empty
    string. *)
Definition Header_Get (h : Header) (key : string) : string :=
  match h !! CanonicalMIMEHeaderKey key with
  | Some (v :: _) => v
  | _ => EmptyString
  end.

(** [h.Set(key, value)]. *)
Definition Header_Set (h : Header) (key value : string) : Header :=
  <[CanonicalMIMEHeaderKey key := [value]]> h.

Record Request : Type := {
  Request_Header : Header
}.

(** The server's response writer: the header map the handler edits, and
    what has gone to the client (status line, a snapshot of the headers
    taken when the status is written, and the body bytes). *)
Record ResponseWriter : Type := {
  handlerHeader : Header;
  wroteHeader : bool;
  status : Z;
  sentHeader : Header;
  written : list byte
}.

Definition newResponse : ResponseWriter :=
  {| handlerHeader := ∅; wroteHeader := false; status := 0;
     sentHeader := ∅; written := [] |}.

(** [w.Header().Set(key, value)]. *)
Definition SetHeader (key value : string) (w : ResponseWriter)
    : ResponseWriter :=
  {| handlerHeader := Header_Set (handlerHeader w) key value;
     wroteHeader := wroteHeader w; status := status w;
     sentHeader := sentHeader w; written := written w |}.

(** [w.WriteHeader(code)]: only the first call counts. *)
Definition WriteHeader (code : Z) (w : ResponseWriter) : ResponseWriter :=
  if wroteHeader w then w
  else {| handlerHeader := handlerHeader w; wroteHeader := true;
          status := code; sentHeader := handlerHeader w;
          written := written w |}.

Definition bodyAllowedForStatus (code : Z) : bool :=
  if (100 <=? code) && (code <=? 199) then false
  else if code =? StatusNoContent then false
  else if code =? StatusNotModified then false
  else true.

(** [w.Write(data)]: writes the status [200] first when none was written,
    and drops the data ([ErrBodyNotAllowed]) for a status without body. *)
Definition Write (data : list byte) (w : ResponseWriter) : ResponseWriter :=
  let w1 := WriteHeader StatusOK w in
  if bodyAllowedForStatus (status w1)
  then {| handlerHeader := handlerHeader w1; wroteHeader := wroteHeader w1;
          status := status w1; sentHeader := sentHeader w1;
          written := written w1 ++ data |}
  else w1.

(** What the server does when the handler returns. *)
Definition finishRequest (w : ResponseWriter) : ResponseWriter :=
  WriteHeader StatusOK w.

End http.

(** [checkHandler], against the package-level [config] and
    [folderData]. *)
Definition checkHandler (config : Config) (folderData : DirData)
    (w : http.ResponseWriter) (r : http.Request) : http.ResponseWriter :=
  let etag := http.Header_Get (http.Request_Header r) "If-None-Match" in
  if negb (Force config) && String.eqb etag (ChecksumHeader folderData)
  then http.WriteHeader http.StatusNotModified w
  else
    let w1 := http.SetHeader "ETag" (ChecksumHeader folderData) w in
    let w2 := http.WriteHeader http.StatusOK w1 in
    http.Write (ChecksumsBody folderData) w2.

(** One [/check] exchange as the client sees it. *)
Definition serve_check (config : Config) (folderData : DirData)
    (r : http.Request) : http.ResponseWriter :=
  http.finishRequest (checkHandler config folderData http.newResponse r).

(* ===================================================================== *)
(** * [concurrencyLimiter]: a channel used as a counting semaphore *)
(* ===================================================================== *)

(** A [chan struct{}]: its elements carry no data, so a channel is its
    capacity and the number of elements it buffers. *)
Record chan : Type := {
  chan_cap : nat;
  chan_len : nat
}.

(** [make(chan struct{}, max)]; a negative size panics. *)
Definition make_chan (max : Z) : option chan :=
  if max <? 0 then None
  else Some {| chan_cap := Z.to_nat max; chan_len := 0 |}.

(** [concurrencyLimiter(max, h)] creates the channel [sem] the wrapped
    handler closes over. *)
Definition concurrencyLimiter (max : Z) : option chan := make_chan max.

(** [handler := concurrencyLimiter(config.MaxClients, patchMux)] in
    [main]. *)
Definition patch_limiter (config : Config) : option chan :=
  concurrencyLimiter (MaxClients config).

(** How control leaves [h.ServeHTTP]. *)
Inductive exit : Type := Returns | Panics.

(** Where the goroutine of one request stands in the wrapped handler:
    at [sem <- struct{}{}], inside [h.ServeHTTP(w, r)], in the deferred
    function at [<-sem], or done. *)
Inductive pc : Type :=
| AtSend
| InHandler
| AtRecv (x : exit)
| Finished (x : exit).

Record sys : Type := {
  sem : chan;
  reqs : list pc
}.

Definition sys_init (ch : chan) : sys := {| sem := ch; reqs := [] |}.

Definition set_len (n : nat) (ch : chan) : chan :=
  {| chan_cap := chan_cap ch; chan_len := n |}.

(** The steps of the patch listener under the Go channel rules: a send
    completes when the buffer has room or a receiver is parked on the
    empty channel; a receive completes when the buffer holds an
    element. *)
Inductive step : sys -> sys -> Prop :=
| step_arrive s :
    step s {| sem := sem s; reqs := reqs s ++ [AtSend] |}
| step_send s i :
    reqs s !! i = Some AtSend ->
    (chan_len (sem s) < chan_cap (sem s))%nat ->
    step s {| sem := set_len (S (chan_len (sem s))) (sem s);
              reqs := <[i := InHandler]> (reqs s) |}
| step_handoff s i j x :
    reqs s !! i = Some AtSend ->
    reqs s !! j = Some (AtRecv x) ->
    chan_len (sem s) = 0%nat ->
    step s {| sem := sem s;
              reqs := <[j := Finished x]> (<[i := InHandler]> (reqs s)) |}
| step_exit s i x :
    reqs s !! i = Some InHandler ->
    step s {| sem := sem s; reqs := <[i := AtRecv x]> (reqs s) |}
| step_recv s i x :
    reqs s !! i = Some (AtRecv x) ->
    (0 < chan_len (sem s))%nat ->
    step s {| sem := set_len (chan_len (sem s) - 1) (sem s);
              reqs := <[i := Finished x]> (reqs s) |}.

Definition is_InHandler (p : pc) : bool :=
  match p with InHandler => true | _ => false end.

Definition is_AtRecv (p : pc) : bool :=
  match p with AtRecv _ => true | _ => false end.

Fixpoint count (f : pc -> bool) (l : list pc) : nat :=
  match l with
  | [] => 0%nat
  | p :: l' => ((if f p then 1 else 0) + count f l')%nat
  end.

(** Requests executing the inner handler, and requests that hold a slot
    (they have sent and not yet received). *)
Definition running (s : sys) : nat := count is_InHandler (reqs s).

Definition holding (s : sys) : nat :=
  count (fun p => is_InHandler p || is_AtRecv p) (reqs s).

(* ===================================================================== *)
(** * The manifest as the specification describes it *)
(* ===================================================================== *)

(** [{checksum, relativePath}]: one entry per included file. *)
Record ManifestEntry : Type := {
  checksum : string;
  relativePath : string
}.

(** The line [<checksum>\t<relativePath>\n] of an entry. *)
Definition entry_line (e : ManifestEntry) : list byte :=
  String.list_byte_of_string (Sprintf_line (checksum e) (relativePath e)).

(** [serializedBody]: the lines of the entries in order. *)
Definition serialize (es : list ManifestEntry) : list byte :=
  concat (map entry_line es).

(** The state of the walk after the lines of [es] were appended. *)
Definition add_entries (es : list ManifestEntry) (st : walk_state)
    : walk_state :=
  fold_left (fun st e => append_line (entry_line e) st) es st.

(** The entries of the tree below [path], in traversal order: one per
    readable non-directory entry whose path does not end with the marker
    suffix. *)
Fixpoint entries_of (os : filepath.GOOS) (config : Config) (path : string)
    (d : node) {struct d} : list ManifestEntry :=
  match d with
  | File o =>
      if strings.HasSuffix path ".gitkeep" then []
      else
        match o with
        | Opened data None =>
            [{| checksum := checksum_of data;
                relativePath := rel_of config path |}]
        | _ => []
        end
  | Dir dirs _ =>
      flat_map
        (fun nc => entries_of os config (filepath.Join os path (fst nc))
                     (snd nc))
        dirs
  end.

Definition manifest_entries (os : filepath.GOOS) (config : Config)
    (fs : fsroot) : list ManifestEntry :=
  match fs with
  | Missing _ => []
  | Present n =>
      entries_of os config (GameFolder config) (filepath.sorted_view n)
  end.

(** An I/O error lies on the way of the traversal below [path]: a
    directory that cannot be read, or a file outside the exclusion rule
    that cannot be opened or read to its end. *)
Fixpoint io_error_in (os : filepath.GOOS) (path : string) (d : node)
    {struct d} : bool :=
  match d with
  | File o =>
      negb (strings.HasSuffix path ".gitkeep") &&
      match o with
      | Opened _ None => false
      | _ => true
      end
  | Dir dirs rderr =>
      match rderr with
      | Some _ => true
      | None =>
          existsb
            (fun nc => io_error_in os (filepath.Join os path (fst nc))
                         (snd nc))
            dirs
      end
  end.

Definition walk_io_error (os : filepath.GOOS) (config : Config)
    (fs : fsroot) : bool :=
  match fs with
  | Missing _ => true
  | Present n => io_error_in os (GameFolder config) (filepath.sorted_view n)
  end.

(** Every directory of the tree holds each file name once. *)
Fixpoint unique_names (d : node) : Prop :=
  match d with
  | File _ => True
  | Dir dirs _ =>
      NoDup (map fst dirs) /\
      (fix all (l : list (string * node)) : Prop :=
         match l with
         | [] => True
         | nc :: l' => unique_names (snd nc) /\ all l'
         end) dirs
  end.

(** Two snapshots of one tree: the same files with the same contents and
    the same errors, each directory possibly enumerated in another
    order. *)
Inductive same_tree : node -> node -> Prop :=
| same_File o : same_tree (File o) (File o)
| same_Dir l1 l2 rderr :
    same_listing l1 l2 -> same_tree (Dir l1 rderr) (Dir l2 rderr)
with same_listing : list (string * node) -> list (string * node) -> Prop :=
| same_nil : same_listing [] []
| same_cons name d1 d2 l1 l2 :
    same_tree d1 d2 -> same_listing l1 l2 ->
    same_listing ((name, d1) :: l1) ((name, d2) :: l2)
| same_swap a b l1 l2 :
    same_listing l1 l2 -> same_listing (a :: b :: l1) (b :: a :: l2)
| same_trans l1 l2 l3 :
    same_listing l1 l2 -> same_listing l2 l3 -> same_listing l1 l3.

Scheme same_tree_mut := Minimality for same_tree Sort Prop
with same_listing_mut := Minimality for same_listing Sort Prop.

(** The characters of lower-case hexadecimal. *)
Definition is_lower_hex (c : ascii) : bool :=
  http.is_digit c ||
  ((97 <=? nat_of_ascii c)%nat && (nat_of_ascii c <=? 102)%nat).

Definition all_lower_hex (s : string) : Prop :=
  Forall (fun c => is_lower_hex c = true) (String.list_ascii_of_string s).

Fixpoint last_char (s : string) : option ascii :=
  match s with
  | EmptyString => None
  | String c EmptyString => Some c
  | String _ s' => last_char s'
  end.

(* ===================================================================== *)
(** * Sample inputs *)
(* ===================================================================== *)

Definition sample_config : Config :=
  {| PatchPort := 8080; ImagePort := 8081; GameFolder := "/srv/game";
     ImageFolder := "/srv/img"; Force := false; MaxClients := 4 |}.

Definition hello : list byte := String.list_byte_of_string "hello".

(** A tree that holds only [a.txt] with content [hello]. *)
Definition hello_dir : node := Dir [("a.txt", File (Opened hello None))] None.

(** The manifest of [hello_dir] below a folder that is no file-system
    root. *)
Definition hello_manifest : DirData :=
  {| ChecksumHeader :=
       dquote +:+
       "29431c594d9c9d7267aae46c99f53e91f0e98bd505cc484ed8e7578f283e285c"
       +:+ dquote;
     ChecksumsBody :=
       String.list_byte_of_string
         ("2cf24dba5fb0a30e26e83b2ac5b9e29e1b161e5c1fa7425e73043362938b9824"
          +:+ tab +:+ "/a.txt" +:+ newline) |}.

(** The line the specification prints for [hello_dir]: its digest has 63
    digits. *)
Definition spec_line : string :=
  "2cf24dba5fb0a30e26e83b2ac5b9e29e1b161e5c1fa7425e73043362938b982"
  +:+ tab +:+ "/a.txt" +:+ newline.

(** A configuration whose game folder is the root of the file system. *)
Definition root_config : Config :=
  {| PatchPort := 8080; ImagePort := 8081; GameFolder := "/";
     ImageFolder := "/srv/img"; Force := false; MaxClients := 4 |}.

(** The manifest of [hello_dir] when the game folder is [/]. *)
Definition root_manifest : DirData :=
  {| ChecksumHeader :=
       dquote +:+
       "1a4ebdb46e322884137c46f3431e2f8bb6839844655d94c09d0803243392db18"
       +:+ dquote;
     ChecksumsBody :=
       String.list_byte_of_string
         ("2cf24dba5fb0a30e26e83b2ac5b9e29e1b161e5c1fa7425e73043362938b9824"
          +:+ tab +:+ "a.txt" +:+ newline) |}.

(** A file that cannot be opened. *)
Definition unreadable : file_outcome := OpenError (Err "permission denied").

(** A folder whose second file fails while it is read. *)
Definition broken_dir : node :=
  Dir [("a.txt", File (Opened hello None));
       ("b.bin", File (Opened hello (Some (Err "input/output error"))))]
      None.

(** A request that presents the validator of [hello_manifest]. *)
Definition hello_request : http.Request :=
  {| http.Request_Header :=
       {[ "If-None-Match" := [ChecksumHeader hello_manifest] ]} |}.

(** One folder as two enumerations of its two files. *)
Definition two_files : node :=
  Dir [("b.bin", File (Opened hello None));
       ("a.txt", File (Opened hello None))] None.

Definition two_files_listed_otherwise : node :=
  Dir [("a.txt", File (Opened hello None));
       ("b.bin", File (Opened hello None))] None.

(** A gate with one slot, and a state where one request runs and one
    waits. *)
Definition one_slot : chan := {| chan_cap := 1; chan_len := 0 |}.

Definition one_in_one_waiting : sys :=
  {| sem := {| chan_cap := 1; chan_len := 1 |};
     reqs := [InHandler; AtSend] |}.

(** A configuration with [MaxClients] left at zero. *)
Definition unlimited_config : Config :=
  {| PatchPort := 8080; ImagePort := 8081; GameFolder := "/srv/game";
     ImageFolder := "/srv/img"; Force := false; MaxClients := 0 |}.


(* ===================================================================== *)
(** * Predicates of the proofs *)
(* ===================================================================== *)

(** What the walk over [d] comes to: it ends in [log.Fatal] exactly when an
    I/O error lies on its way, and otherwise appends the lines of the
    entries below [d] and returns [nil]. *)
Definition walk_result (os : filepath.GOOS) (config : Config)
    (err : bool) (es : list ManifestEntry) (st : walk_state)
    (r : outcome (option error * walk_state)) : Prop :=
  match r with
  | Done (e, st') => e = None /\ err = false /\ st' = add_entries es st
  | Fatal _ => err = true
  | Panic => False
  end.

(** The start-up build against the specification's manifest: it fails
    exactly on an I/O error, and otherwise appends the serialized entries
    to the body and sets the validator to the quoted digest of those
    lines. *)
Definition build_result (os : filepath.GOOS) (config : Config) (fs : fsroot)
    (fd0 : DirData) (r : outcome (unit * DirData)) : Prop :=
  match r with
  | Done (_, fd) =>
      walk_io_error os config fs = false /\
      ChecksumsBody fd
      = ChecksumsBody fd0 ++ serialize (manifest_entries os config fs) /\
      ChecksumHeader fd
      = dquote +:+ hex.EncodeToString
          (sha256.Sum256 (serialize (manifest_entries os config fs)))
          +:+ dquote
  | Fatal _ => walk_io_error os config fs = true
  | Panic => False
  end.

(** A path strictly below the game folder: the folder, a separator, and
    more. *)
Definition below (os : filepath.GOOS) (config : Config) (path : string)
    : Prop :=
  exists rest, path = GameFolder config +:+ filepath.Separator os +:+ rest.

(** An entry of a listing with the tree below it sorted. *)
Definition view_entry (nc : string * node) : string * node :=
  (nc.1, filepath.sorted_view nc.2).

(** A truth value as a count. *)
Definition bit (b : bool) : nat := if b then 1%nat else 0%nat.

(** The buffer of [sem] holds one element for each request that has sent
    and not yet received, and never more than its capacity. *)
Definition gate_inv (ch : chan) (s : sys) : Prop :=
  chan_cap (sem s) = chan_cap ch /\
  chan_len (sem s) = holding s /\
  (chan_len (sem s) <= chan_cap (sem s))%nat.

(** An unbuffered gate with every request still at its send. *)
Definition all_blocked (s : sys) : Prop :=
  chan_cap (sem s) = 0%nat /\ chan_len (sem s) = 0%nat /\
  Forall (fun p => p = AtSend) (reqs s).

(* ===================================================================== *)
(** * Further notions: first errors, plain names, request stages *)
(* ===================================================================== *)

(** The first I/O error in traversal order below [path], if any. *)
Fixpoint first_error_in (os : filepath.GOOS) (path : string) (d : node)
    {struct d} : option error :=
  match d with
  | File o =>
      if strings.HasSuffix path ".gitkeep" then None
      else
        match o with
        | OpenError e => Some e
        | Opened _ rerr => rerr
        end
  | Dir dirs rderr =>
      match rderr with
      | Some e => Some e
      | None =>
          (fix first (l : list (string * node)) : option error :=
             match l with
             | [] => None
             | nc :: l' =>
                 match first_error_in os (filepath.Join os path (fst nc))
                         (snd nc) with
                 | Some e => Some e
                 | None => first l'
                 end
             end) dirs
      end
  end.

(** The first I/O error the start-up build meets. *)
Definition first_error (os : filepath.GOOS) (config : Config)
    (fs : fsroot) : option error :=
  match fs with
  | Missing e => Some e
  | Present n =>
      first_error_in os (GameFolder config) (filepath.sorted_view n)
  end.

(** A folder that holds nothing but marker files, one of them
    unreadable. *)
Definition only_markers : node :=
  Dir [(".gitkeep", File (OpenError (Err "permission denied")));
       ("empty", Dir [("keep.gitkeep", File (Opened hello None))] None)]
      None.

(** A configuration whose game folder names a regular file. *)
Definition file_config : Config :=
  {| PatchPort := 8080; ImagePort := 8081; GameFolder := "/srv/game.pak";
     ImageFolder := "/srv/img"; Force := false; MaxClients := 4 |}.

(** The validator of a manifest without entries: the digest of no bytes. *)
Definition empty_validator : string :=
  dquote +:+
  "e3b0c44298fc1c149afbf4c8996fb92427ae41e4649b934ca495991b7852b855"
  +:+ dquote.

(** [strings.ContainsRune(s, c)] for a one-byte [c]. *)
Fixpoint has_char (c : ascii) (s : string) : bool :=
  match s with
  | EmptyString => false
  | String x s' => Ascii.eqb x c || has_char c s'
  end.

(** A directory-entry name: not empty, and free of both separators. *)
Definition plain_name (n : string) : Prop :=
  n <> EmptyString /\
  has_char "092"%char n = false /\ has_char "/"%char n = false.

(** [names] written one after the other, each behind a [sep]. *)
Definition rooted (sep : string) (names : list string) : string :=
  fold_right (fun n acc => sep +:+ n +:+ acc) EmptyString names.

(** A configuration on a Windows drive. *)
Definition windows_config : Config :=
  {| PatchPort := 8080; ImagePort := 8081;
     GameFolder := "C:" +:+ backslash +:+ "game";
     ImageFolder := "C:" +:+ backslash +:+ "img";
     Force := false; MaxClients := 4 |}.

(** The request a client sends after a reply: the same headers with the
    validator of the reply under [If-None-Match]. *)
Definition revalidate (r : http.Request) (reply : http.ResponseWriter)
    : http.Request :=
  {| http.Request_Header :=
       <["If-None-Match" := [http.Header_Get (http.sentHeader reply) "ETag"]]>
         (http.Request_Header r) |}.

(** A request without a validator, and one with a weak validator. *)
Definition first_request : http.Request :=
  {| http.Request_Header := {[ "User-Agent" := ["mhf-launcher"] ]} |}.

Definition weak_request : http.Request :=
  {| http.Request_Header :=
       {[ "If-None-Match" := ["W/" +:+ ChecksumHeader hello_manifest] ]} |}.

(** How far a request has come in the wrapped handler. *)
Definition stage (p : pc) : nat :=
  match p with
  | AtSend => 0
  | InHandler => 1
  | AtRecv _ => 2
  | Finished _ => 3
  end%nat.

(** The way a request left the inner handler, once it has. *)
Definition left_by (p : pc) : option exit :=
  match p with
  | AtRecv x | Finished x => Some x
  | _ => None
  end.

(** A readable file that the exclusion rule keeps, under a plain name. *)
Definition plain_file (nc : string * node) : Prop :=
  plain_name (fst nc) /\
  strings.HasSuffix (fst nc) ".gitkeep" = false /\
  exists data, snd nc = File (Opened data None).

(** A request with two [If-None-Match] values, the second one current. *)
Definition double_request : http.Request :=
  {| http.Request_Header :=
       {[ "If-None-Match" :=
            [dquote +:+ "stale" +:+ dquote; ChecksumHeader hello_manifest] ]}
  |}.

(** A gate of one slot after two requests have come and gone, one by
    return and one by panic, with a third one waiting. *)
Definition drained : sys :=
  {| sem := one_slot; reqs := [Finished Returns; Finished Panics; AtSend] |}.

(** A folder of three files, enumerated out of order. *)
Definition flat_listing : list (string * node) :=
  [("quest.bin", File (Opened hello None));
   ("dat.bin", File (Opened [] None));
   ("mhf.exe", File (Opened hello None))].

(* ===================================================================== *)
(** * Proofs *)
(* ===================================================================== *)

(** ** Chunked hashing *)

Lemma block_S fuel hh p :
  sha256.block (S fuel) hh p
  = if (sha256.chunk <=? length p)%nat
    then sha256.block fuel (sha256.block1 hh (take sha256.chunk p))
           (drop sha256.chunk p)
    else (hh, p).
Proof. reflexivity. Qed.

Lemma block_short fuel hh p :
  (length p < 64)%nat -> sha256.block fuel hh p = (hh, p).
Proof.
  intros Hlt. destruct fuel as [|fuel]; [reflexivity|].
  rewrite block_S. unfold sha256.chunk.
  destruct (Nat.leb_spec 64 (length p)); [lia|reflexivity].
Qed.

Lemma block_long fuel hh p :
  (64 <= length p)%nat ->
  sha256.block (S fuel) hh p
  = sha256.block fuel (sha256.block1 hh (take 64 p)) (drop 64 p).
Proof.
  intros Hle. rewrite block_S. unfold sha256.chunk.
  destruct (Nat.leb_spec 64 (length p)); [reflexivity|lia].
Qed.

(** Fuel beyond the number of whole chunks changes nothing. *)
Lemma block_fuel f1 : forall f2 hh p,
  (length p < 64 * S f1)%nat ->
  (length p < 64 * S f2)%nat ->
  sha256.block f1 hh p = sha256.block f2 hh p.
Proof.
  induction f1 as [|f1 IH]; intros f2 hh p H1 H2.
  - rewrite !block_short by lia. reflexivity.
  - destruct (Nat.lt_ge_cases (length p) 64) as [Hs|Hl].
    + rewrite !block_short by lia. reflexivity.
    + destruct f2 as [|f2]; [lia|].
      rewrite !block_long by lia.
      apply IH; rewrite length_drop; lia.
Qed.

(** With enough fuel the tail left over is shorter than a chunk. *)
Lemma block_rest f : forall hh p,
  (length p < 64 * S f)%nat ->
  (length (sha256.block f hh p).2 < 64)%nat.
Proof.
  induction f as [|f IH]; intros hh p H.
  - simpl. lia.
  - destruct (Nat.lt_ge_cases (length p) 64) as [Hs|Hl].
    + rewrite block_short by lia. simpl. lia.
    + rewrite block_long by lia. apply IH. rewrite length_drop. lia.
Qed.

(** Hashing [p ++ q] is hashing [p] and going on with [q] after the tail
    [p] left over. *)
Lemma block_app f1 : forall f2 f3 hh p q,
  (length p < 64 * S f1)%nat ->
  (length (p ++ q) < 64 * S f2)%nat ->
  (length ((sha256.block f1 hh p).2 ++ q) < 64 * S f3)%nat ->
  sha256.block f2 hh (p ++ q)
  = sha256.block f3 (sha256.block f1 hh p).1
      ((sha256.block f1 hh p).2 ++ q).
Proof.
  induction f1 as [|f1 IH]; intros f2 f3 hh p q H1 H2 H3.
  - rewrite block_short in * by lia. simpl in *.
    apply block_fuel; assumption.
  - destruct (Nat.lt_ge_cases (length p) 64) as [Hs|Hl].
    + rewrite (block_short (S f1)) in * by lia. simpl in *.
      apply block_fuel; assumption.
    + rewrite length_app in H2.
      destruct f2 as [|f2]; [lia|].
      rewrite (block_long f1) in * by lia.
      rewrite (block_long f2) by (rewrite length_app; lia).
      rewrite take_app_le, drop_app_le by lia.
      apply IH.
      * rewrite length_drop. lia.
      * rewrite length_app, length_drop. lia.
      * assumption.
Qed.

Lemma Write_nil_New : sha256.Write sha256.New [] = sha256.New.
Proof. reflexivity. Qed.

(** Two writes are one write of the concatenation. *)
Lemma Write_Write d p q :
  sha256.Write (sha256.Write d p) q = sha256.Write d (p ++ q).
Proof.
  unfold sha256.Write.
  destruct (sha256.block (length (sha256.digest_x d ++ p))
              (sha256.digest_h d) (sha256.digest_x d ++ p))
    as [h1 rest1] eqn:E1.
  cbn [sha256.digest_x sha256.digest_h sha256.digest_len].
  rewrite (app_assoc (sha256.digest_x d) p q).
  rewrite (block_app (length (sha256.digest_x d ++ p))
             (length ((sha256.digest_x d ++ p) ++ q))
             (length (rest1 ++ q)) (sha256.digest_h d)
             (sha256.digest_x d ++ p) q); rewrite ?E1; simpl; try lia.
  destruct (sha256.block (length (rest1 ++ q)) h1 (rest1 ++ q)) as [h2 rest2].
  f_equal. rewrite length_app, Nat2Z.inj_add.
  rewrite Zplus_mod_idemp_l. f_equal. lia.
Qed.

Lemma checkSum_length d : length (sha256.checkSum d) = 32%nat.
Proof.
  unfold sha256.checkSum.
  destruct (sha256.digest_h _) as [a b c d0 e f g h]. reflexivity.
Qed.

Lemma Sum_nil_length d : length (sha256.Sum d []) = sha256.Size.
Proof. unfold sha256.Sum. simpl. apply checkSum_length. Qed.

(** ** Hexadecimal encoding *)

Lemma EncodeToString_length src :
  String.length (hex.EncodeToString src) = (2 * length src)%nat.
Proof. induction src as [|v src IH]; simpl; [reflexivity|]. rewrite IH. lia. Qed.

Lemma digit_lower_hex n : is_lower_hex (hex.digit n) = true.
Proof.
  unfold hex.digit.
  destruct (Z.to_nat n) as [|k]; [reflexivity|].
  do 15 (destruct k as [|k]; [reflexivity|]).
  reflexivity.
Qed.

Lemma EncodeToString_lower_hex src : all_lower_hex (hex.EncodeToString src).
Proof.
  unfold all_lower_hex.
  induction src as [|v src IH]; simpl; [constructor|].
  constructor; [apply digit_lower_hex|].
  constructor; [apply digit_lower_hex|exact IH].
Qed.

(** ** Strings *)

Lemma app_String c (a b : string) : String c a +:+ b = String c (a +:+ b).
Proof. reflexivity. Qed.

Lemma app_Empty (b : string) : EmptyString +:+ b = b.
Proof. reflexivity. Qed.

Lemma string_app_assoc (a b c : string) : (a +:+ b) +:+ c = a +:+ b +:+ c.
Proof.
  induction a as [|x a IH]; [reflexivity|].
  rewrite !app_String. f_equal. exact IH.
Qed.

Lemma string_app_length (a b : string) :
  String.length (a +:+ b) = (String.length a + String.length b)%nat.
Proof.
  induction a as [|x a IH]; [reflexivity|].
  rewrite app_String. simpl. now rewrite IH.
Qed.

Lemma string_app_Empty_r (a : string) : a +:+ EmptyString = a.
Proof.
  induction a as [|x a IH]; [reflexivity|].
  rewrite app_String. now rewrite IH.
Qed.

Lemma prefix_app (a b : string) : String.prefix a (a +:+ b) = true.
Proof.
  induction a as [|x a IH]; [now destruct b|].
  rewrite app_String. simpl.
  destruct (ascii_dec x x); [exact IH|congruence].
Qed.

Lemma from_app_skip (a b : string) (k : nat) :
  strings.from (String.length a + k) (a +:+ b) = strings.from k b.
Proof.
  induction a as [|x a IH]; [reflexivity|].
  rewrite app_String. simpl. exact IH.
Qed.

Lemma from_app (a b : string) : strings.from (String.length a) (a +:+ b) = b.
Proof.
  rewrite <- (Nat.add_0_r (String.length a)). rewrite from_app_skip.
  reflexivity.
Qed.

Lemma TrimPrefix_app (a b : string) : strings.TrimPrefix (a +:+ b) a = b.
Proof.
  unfold strings.TrimPrefix, strings.HasPrefix.
  rewrite prefix_app. apply from_app.
Qed.

Lemma TrimPrefix_self (a : string) : strings.TrimPrefix a a = EmptyString.
Proof.
  rewrite <- (string_app_Empty_r a) at 1. apply TrimPrefix_app.
Qed.

(** A suffix of the last component is a suffix of the whole path. *)
Lemma HasSuffix_app (a b suffix : string) :
  strings.HasSuffix b suffix = true ->
  strings.HasSuffix (a +:+ b) suffix = true.
Proof.
  unfold strings.HasSuffix. intros H.
  apply andb_true_iff in H as [Hlen Heq].
  apply Nat.leb_le in Hlen.
  apply andb_true_iff. split.
  - apply Nat.leb_le. rewrite string_app_length. lia.
  - rewrite string_app_length.
    replace (String.length a + String.length b - String.length suffix)%nat
      with (String.length a + (String.length b - String.length suffix))%nat
      by lia.
    rewrite from_app_skip. exact Heq.
Qed.

Lemma last_char_app (a b : string) :
  b <> EmptyString -> last_char (a +:+ b) = last_char b.
Proof.
  intros Hb. induction a as [|x a IH]; [reflexivity|].
  rewrite app_String. simpl. rewrite IH.
  destruct (a +:+ b) eqn:E; [|reflexivity].
  destruct a; [rewrite app_Empty in E; congruence|discriminate].
Qed.

Lemma last_char_from (n : nat) : forall s : string,
  (n < String.length s)%nat -> last_char (strings.from n s) = last_char s.
Proof.
  induction n as [|n IH]; intros s H; [reflexivity|].
  destruct s as [|c s]; simpl in *; [lia|].
  rewrite IH by lia.
  destruct s; simpl in *; [lia|reflexivity].
Qed.

(** A path with the suffix ends with the last byte of the suffix. *)
Lemma HasSuffix_last_char (s suffix : string) :
  suffix <> EmptyString ->
  strings.HasSuffix s suffix = true -> last_char s = last_char suffix.
Proof.
  unfold strings.HasSuffix. intros Hne H.
  apply andb_true_iff in H as [Hlen Heq].
  apply Nat.leb_le in Hlen. apply String.eqb_eq in Heq.
  rewrite <- Heq at 1. symmetry. apply last_char_from.
  destruct suffix; [congruence|]. simpl in *. lia.
Qed.

Lemma HasSuffix_false_last (s suffix : string) :
  suffix <> EmptyString ->
  last_char s <> last_char suffix -> strings.HasSuffix s suffix = false.
Proof.
  intros Hne Hl. destruct (strings.HasSuffix s suffix) eqn:E; [|reflexivity].
  exfalso. apply Hl. now apply HasSuffix_last_char.
Qed.

(** ** Paths *)

Lemma Separator_cases os :
  filepath.Separator os = slash \/ filepath.Separator os = backslash.
Proof. destruct os; [left|right]; reflexivity. Qed.

(** Below a folder that is not a file-system root, [Join] puts exactly one
    separator between the folder and the name. *)
Lemma Join_plain os path name :
  path <> EmptyString ->
  strings.HasSuffix path (filepath.Separator os) = false ->
  filepath.Join os path name = path +:+ filepath.Separator os +:+ name.
Proof.
  intros Hne Hs. unfold filepath.Join. rewrite Hs.
  destruct path; [congruence|reflexivity].
Qed.

Lemma Join_ends_with_name os path name :
  exists pre, filepath.Join os path name = pre +:+ name.
Proof.
  unfold filepath.Join. destruct path as [|c path].
  - exists EmptyString. reflexivity.
  - destruct (strings.HasSuffix _ _).
    + eexists. reflexivity.
    + eexists. rewrite <- string_app_assoc. reflexivity.
Qed.

Lemma prefix_Empty (s : string) : String.prefix EmptyString s = true.
Proof. destruct s; reflexivity. Qed.

(** The separator a relative path starts with comes out as a slash. *)
Lemma ReplaceAll_separator os (rest : string) :
  strings.ReplaceAll (filepath.Separator os +:+ rest) backslash slash
  = slash +:+ strings.replace_from backslash slash 0 rest.
Proof.
  destruct os; unfold strings.ReplaceAll, filepath.Separator, backslash, slash;
    rewrite !app_String, !app_Empty; simpl.
  - reflexivity.
  - rewrite prefix_Empty. reflexivity.
Qed.

(** ** Induction on trees *)

Lemma node_ind (P : node -> Prop) :
  (forall o, P (File o)) ->
  (forall l rderr, Forall (fun nc => P (snd nc)) l -> P (Dir l rderr)) ->
  forall d, P d.
Proof.
  intros HF HD. fix IH 1. intros [o|l rderr]; [apply HF|apply HD].
  induction l as [|[name c] l IHl]; constructor; [apply IH|exact IHl].
Qed.

(** ** The walk, entry by entry *)

Lemma add_entries_app es1 es2 st :
  add_entries (es1 ++ es2) st = add_entries es2 (add_entries es1 st).
Proof. unfold add_entries. apply fold_left_app. Qed.

Lemma visit_File os config path o st :
  walk_result os config (io_error_in os path (File o))
    (entries_of os config path (File o)) st
    (visit config path (Some (File o)) None st).
Proof.
  unfold visit, walk_result. simpl.
  destruct (strings.HasSuffix path ".gitkeep"); simpl; [auto|].
  destruct o as [e|data [e|]]; simpl; auto.
Qed.

Lemma bind_ret_r {S A : Type} (m : M S A) (s : S) :
  bind m (fun a => ret a) s = m s.
Proof. unfold bind. destruct (m s) as [[a s']|e|]; reflexivity. Qed.

Lemma walkDir_File os config path o st :
  filepath.walkDir os (visit config) path (File o) st
  = visit config path (Some (File o)) None st.
Proof.
  change (filepath.walkDir os (visit config) path (File o) st)
    with (bind (visit config path (Some (File o)) None)
            (fun err => ret err) st).
  apply bind_ret_r.
Qed.

Lemma walkDir_Dir os config path l rderr st :
  filepath.walkDir os (visit config) path (Dir l rderr) st
  = match rderr with
    | Some e => Fatal e
    | None =>
        filepath.range_dirs os (filepath.walkDir os (visit config)) path l st
    end.
Proof. destruct rderr; reflexivity. Qed.

Lemma range_dirs_cons os config path name d1 l st :
  filepath.range_dirs os (filepath.walkDir os (visit config)) path
    ((name, d1) :: l) st
  = match filepath.walkDir os (visit config) (filepath.Join os path name)
            d1 st with
    | Done (Some e, st') =>
        Done (if is_SkipDir e then None else Some e, st')
    | Done (None, st') =>
        filepath.range_dirs os (filepath.walkDir os (visit config)) path l st'
    | Fatal e => Fatal e
    | Panic => Panic
    end.
Proof.
  change (filepath.range_dirs os (filepath.walkDir os (visit config)) path
            ((name, d1) :: l) st)
    with (bind (filepath.walkDir os (visit config)
                  (filepath.Join os path name) d1)
            (fun err1 =>
               match err1 with
               | Some e => ret (if is_SkipDir e then None else Some e)
               | None =>
                   filepath.range_dirs os (filepath.walkDir os (visit config))
                     path l
               end) st).
  unfold bind.
  destruct (filepath.walkDir _ _ _ _ _) as [[[e|] st']|e|]; reflexivity.
Qed.

Lemma walkDir_spec os config : forall d path st,
  walk_result os config (io_error_in os path d)
    (entries_of os config path d) st
    (filepath.walkDir os (visit config) path d st).
Proof.
  induction d as [o|l rderr IH] using node_ind; intros path st.
  - rewrite walkDir_File. apply visit_File.
  - rewrite walkDir_Dir. destruct rderr as [e|]; [reflexivity|].
    cbn [io_error_in entries_of].
    revert st. induction IH as [|[name d1] l Hd1 _ IHl]; intros st.
    + simpl. auto.
    + rewrite range_dirs_cons. cbn [existsb flat_map fst snd].
      specialize (Hd1 (filepath.Join os path name) st). simpl in Hd1.
      unfold walk_result in Hd1.
      destruct (filepath.walkDir _ _ _ _ _) as [[r st1]|e|]; [|simpl|tauto].
      * destruct Hd1 as (-> & -> & ->). simpl.
        specialize (IHl (add_entries
          (entries_of os config (filepath.Join os path name) d1) st)).
        unfold walk_result in IHl |- *.
        destruct (filepath.range_dirs _ _ _ _ _) as [[r st2]|e|];
          [|exact IHl|exact IHl].
        destruct IHl as (-> & -> & ->). rewrite add_entries_app. auto.
      * now rewrite Hd1.
Qed.

(** ** [loadFolderData] and [main] *)

Lemma add_entries_body es st :
  ChecksumsBody (folderData (add_entries es st))
  = ChecksumsBody (folderData st) ++ serialize es.
Proof.
  revert st. induction es as [|e es IH]; intros st.
  - simpl. now rewrite app_nil_r.
  - change (add_entries (e :: es) st)
      with (add_entries es (append_line (entry_line e) st)).
    rewrite IH. unfold serialize. simpl. now rewrite app_assoc.
Qed.

Lemma add_entries_hasher es st :
  hasher (add_entries es st)
  = fold_left sha256.Write (map entry_line es) (hasher st).
Proof.
  revert st. induction es as [|e es IH]; intros st; [reflexivity|].
  change (add_entries (e :: es) st)
    with (add_entries es (append_line (entry_line e) st)).
  rewrite IH. reflexivity.
Qed.

(** Writing the lines one by one from a fresh hasher is writing the whole
    body at once. *)
Lemma Write_lines ls : forall body,
  fold_left sha256.Write ls (sha256.Write sha256.New body)
  = sha256.Write sha256.New (body ++ concat ls).
Proof.
  induction ls as [|l ls IH]; intros body; simpl.
  - now rewrite app_nil_r.
  - rewrite Write_Write, IH. now rewrite app_assoc.
Qed.

Lemma Sum_nil d : sha256.Sum d [] = sha256.checkSum d.
Proof. reflexivity. Qed.

Lemma loadFolderData_spec os config fs fd0 :
  build_result os config fs fd0 (loadFolderData os config fs fd0).
Proof.
  unfold loadFolderData, filepath.WalkDir, build_result.
  destruct fs as [e|n].
  - reflexivity.
  - unfold bind.
    pose proof (walkDir_spec os config (filepath.sorted_view n)
                  (GameFolder config)
                  {| folderData := fd0; hasher := sha256.New |}) as H.
    unfold walk_result in H.
    destruct (filepath.walkDir _ _ _ _ _) as [[r st]|e|]; [|exact H|exact H].
    destruct H as (-> & Herr & ->). simpl.
    split; [exact Herr|]. split.
    + rewrite add_entries_body. reflexivity.
    + rewrite add_entries_hasher. simpl.
      rewrite <- Write_nil_New at 1. rewrite Write_lines. reflexivity.
Qed.

Lemma main_spec os config fs :
  match main os config fs with
  | Listening fd =>
      walk_io_error os config fs = false /\
      ChecksumsBody fd = serialize (manifest_entries os config fs) /\
      ChecksumHeader fd
      = dquote +:+ hex.EncodeToString (sha256.Sum256 (ChecksumsBody fd))
          +:+ dquote
  | Exited _ => walk_io_error os config fs = true
  | Crashed => False
  end.
Proof.
  unfold main.
  pose proof (loadFolderData_spec os config fs folderData_zero) as H.
  unfold build_result in H.
  destruct (loadFolderData _ _ _ _) as [[u fd]|e|]; [|exact H|exact H].
  destruct H as (He & Hb & Hh). simpl in Hb.
  rewrite Hb. auto.
Qed.

Lemma loadFolderData_hello :
  loadFolderData filepath.unix sample_config (Present hello_dir)
    folderData_zero
  = Done (tt, hello_manifest).
Proof. vm_compute. reflexivity. Qed.

Lemma loadFolderData_Done os config fs fd0 u fd :
  loadFolderData os config fs fd0 = Done (u, fd) ->
  walk_io_error os config fs = false /\
  ChecksumsBody fd
  = ChecksumsBody fd0 ++ serialize (manifest_entries os config fs) /\
  ChecksumHeader fd
  = dquote +:+ hex.EncodeToString
      (sha256.Sum256 (serialize (manifest_entries os config fs)))
      +:+ dquote.
Proof.
  intros H. pose proof (loadFolderData_spec os config fs fd0) as Hs.
  rewrite H in Hs. exact Hs.
Qed.

(** Claim C2: after the start-up build the validator is the quoted
    lower-case hex encoding of the SHA-256 digest of exactly the bytes of
    the body, for every tree the build succeeds on. *)
Theorem aggregate_checksum_is_digest_of_body os config fs u fd :
  loadFolderData os config fs folderData_zero = Done (u, fd) ->
  ChecksumHeader fd
  = dquote +:+ hex.EncodeToString (sha256.Sum256 (ChecksumsBody fd))
      +:+ dquote.
Proof.
  intros H. apply loadFolderData_Done in H as (_ & Hb & Hh).
  simpl in Hb. rewrite Hb. exact Hh.
Qed.

Lemma aggregate_checksum_witness :
  loadFolderData filepath.unix sample_config (Present hello_dir)
    folderData_zero = Done (tt, hello_manifest) /\
  ChecksumHeader hello_manifest
  = dquote +:+ hex.EncodeToString
      (sha256.Sum256 (ChecksumsBody hello_manifest)) +:+ dquote.
Proof.
  split; [vm_compute; reflexivity|].
  apply (aggregate_checksum_is_digest_of_body filepath.unix sample_config
           (Present hello_dir) tt hello_manifest).
  vm_compute; reflexivity.
Defined.

(** ** Checksums *)

Lemma checksum_of_hex data :
  String.length (checksum_of data) = 64%nat /\
  all_lower_hex (checksum_of data).
Proof.
  unfold checksum_of. split.
  - rewrite EncodeToString_length, Sum_nil_length. reflexivity.
  - apply EncodeToString_lower_hex.
Qed.

Lemma entries_of_checksums os config : forall d path,
  Forall (fun e => String.length (checksum e) = 64%nat /\
                   all_lower_hex (checksum e))
         (entries_of os config path d).
Proof.
  induction d as [o|l rderr IH] using node_ind; intros path.
  - simpl. destruct (strings.HasSuffix path ".gitkeep"); [constructor|].
    destruct o as [e|data [e|]]; try constructor; [|constructor].
    apply checksum_of_hex.
  - cbn [entries_of]. induction IH as [|[name d1] l Hd1 _ IHl]; simpl.
    + constructor.
    + apply Forall_app. split; [apply Hd1|exact IHl].
Qed.

(** Claim C5: the body is the serialization of the manifest entries, and
    the checksum of every entry has 64 characters, all of them lower-case
    hexadecimal digits. *)
Theorem per_file_checksums_are_lower_hex os config fs u fd :
  loadFolderData os config fs folderData_zero = Done (u, fd) ->
  ChecksumsBody fd = serialize (manifest_entries os config fs) /\
  Forall (fun e => String.length (checksum e) = 64%nat /\
                   all_lower_hex (checksum e))
         (manifest_entries os config fs).
Proof.
  intros H. apply loadFolderData_Done in H as (_ & Hb & _).
  split; [exact Hb|].
  destruct fs as [e|n]; [constructor|]. apply entries_of_checksums.
Qed.

Lemma per_file_checksums_witness :
  loadFolderData filepath.unix sample_config (Present hello_dir)
    folderData_zero = Done (tt, hello_manifest) /\
  ChecksumsBody hello_manifest
  = serialize (manifest_entries filepath.unix sample_config
                 (Present hello_dir)) /\
  Forall (fun e => String.length (checksum e) = 64%nat /\
                   all_lower_hex (checksum e))
         (manifest_entries filepath.unix sample_config (Present hello_dir)).
Proof.
  split; [vm_compute; reflexivity|].
  apply (per_file_checksums_are_lower_hex filepath.unix sample_config
           (Present hello_dir) tt hello_manifest).
  vm_compute; reflexivity.
Defined.

(** Claim C6: the walk over a file whose name ends with [.gitkeep] returns
    without touching the manifest, whatever the file holds and even when it
    cannot be opened; it contributes no entry; and the callback on a
    directory leaves the manifest untouched as well. *)
Theorem marker_files_and_directories_add_nothing
    os config dir name o path l rderr st :
  strings.HasSuffix name ".gitkeep" = true ->
  filepath.walkDir os (visit config) (filepath.Join os dir name) (File o) st
  = Done (None, st) /\
  entries_of os config (filepath.Join os dir name) (File o) = [] /\
  visit config path (Some (Dir l rderr)) None st = Done (None, st).
Proof.
  intros Hs.
  assert (Hp : strings.HasSuffix (filepath.Join os dir name) ".gitkeep"
               = true).
  { destruct (Join_ends_with_name os dir name) as [pre ->].
    now apply HasSuffix_app. }
  split; [|split].
  - rewrite walkDir_File. unfold visit. simpl. rewrite Hp. reflexivity.
  - simpl. rewrite Hp. reflexivity.
  - reflexivity.
Qed.

Lemma marker_files_witness :
  strings.HasSuffix ".gitkeep" ".gitkeep" = true /\
  filepath.walkDir filepath.unix (visit sample_config)
    (filepath.Join filepath.unix "/srv/game" ".gitkeep") (File unreadable)
    {| folderData := folderData_zero; hasher := sha256.New |}
  = Done (None, {| folderData := folderData_zero; hasher := sha256.New |}) /\
  entries_of filepath.unix sample_config
    (filepath.Join filepath.unix "/srv/game" ".gitkeep") (File unreadable)
  = [] /\
  visit sample_config "/srv/game" (Some (Dir [] None)) None
    {| folderData := folderData_zero; hasher := sha256.New |}
  = Done (None, {| folderData := folderData_zero; hasher := sha256.New |}).
Proof.
  split; [reflexivity|].
  apply (marker_files_and_directories_add_nothing filepath.unix sample_config
           "/srv/game" ".gitkeep" unreadable "/srv/game" [] None).
  reflexivity.
Defined.

(** Claim C7: when an I/O error lies on the way of the traversal (the root
    cannot be inspected, a directory cannot be read, a file cannot be opened
    or read to its end), [main] exits through [log.Fatal] and never reaches
    the point where the handlers serve a manifest. *)
Theorem io_error_aborts_startup os config fs :
  walk_io_error os config fs = true ->
  (exists e, main os config fs = Exited e) /\
  (forall fd, main os config fs <> Listening fd).
Proof.
  intros He. pose proof (main_spec os config fs) as H.
  destruct (main os config fs) as [e| |fd].
  - split; [eauto|discriminate].
  - contradiction.
  - destruct H as (H & _). congruence.
Qed.

Lemma io_error_aborts_witness :
  walk_io_error filepath.unix sample_config (Present broken_dir) = true /\
  (exists e, main filepath.unix sample_config (Present broken_dir) = Exited e)
  /\ (forall fd,
        main filepath.unix sample_config (Present broken_dir)
        <> Listening fd).
Proof.
  split; [vm_compute; reflexivity|].
  apply (io_error_aborts_startup filepath.unix sample_config
           (Present broken_dir)).
  vm_compute; reflexivity.
Defined.

(** ** Relative paths *)

Lemma below_Join os config path name :
  GameFolder config <> EmptyString ->
  below os config path -> below os config (filepath.Join os path name).
Proof.
  intros Hne [rest ->]. unfold filepath.Join.
  destruct (GameFolder config +:+ filepath.Separator os +:+ rest) eqn:E.
  - destruct (GameFolder config); [congruence|discriminate].
  - rewrite <- E.
    destruct (strings.HasSuffix _ _).
    + exists (rest +:+ name). now rewrite !string_app_assoc.
    + exists (rest +:+ filepath.Separator os +:+ name).
      now rewrite !string_app_assoc.
Qed.

Lemma rel_of_below os config path :
  below os config path ->
  exists rest, rel_of config path = slash +:+ rest.
Proof.
  intros [rest ->]. unfold rel_of.
  rewrite TrimPrefix_app, ReplaceAll_separator. eauto.
Qed.

Lemma entries_of_below os config : forall d path,
  GameFolder config <> EmptyString ->
  below os config path ->
  Forall (fun e => exists rest, relativePath e = slash +:+ rest)
         (entries_of os config path d).
Proof.
  induction d as [o|l rderr IH] using node_ind; intros path Hne Hb.
  - simpl. destruct (strings.HasSuffix path ".gitkeep"); [constructor|].
    destruct o as [e|data [e|]]; try constructor; [|constructor].
    simpl. now apply (rel_of_below os).
  - cbn [entries_of]. induction IH as [|[name d1] l Hd1 _ IHl]; simpl.
    + constructor.
    + apply Forall_app. split; [|exact IHl].
      apply Hd1; [exact Hne|]. now apply below_Join.
Qed.

Lemma entries_of_root_dir os config l rderr :
  GameFolder config <> EmptyString ->
  strings.HasSuffix (GameFolder config) (filepath.Separator os) = false ->
  Forall (fun e => exists rest, relativePath e = slash +:+ rest)
         (entries_of os config (GameFolder config) (Dir l rderr)).
Proof.
  intros Hne Hs. cbn [entries_of].
  induction l as [|[name d1] l IHl]; simpl; [constructor|].
  apply Forall_app. split; [|exact IHl].
  apply entries_of_below; [exact Hne|].
  exists name. now apply Join_plain.
Qed.

Lemma sorted_view_Dir l rderr :
  exists l', filepath.sorted_view (Dir l rderr) = Dir l' rderr.
Proof. simpl. eauto. Qed.

(** Claim C10, amended: when the game folder is a directory whose path
    does not end with the path separator, every relative path of the
    manifest begins with a slash and every line has the shape
    [<64 hex digits> TAB / <path> LF]. *)
Theorem relative_paths_begin_with_slash os config l rderr u fd :
  GameFolder config <> EmptyString ->
  strings.HasSuffix (GameFolder config) (filepath.Separator os) = false ->
  loadFolderData os config (Present (Dir l rderr)) folderData_zero
  = Done (u, fd) ->
  ChecksumsBody fd
  = serialize (manifest_entries os config (Present (Dir l rderr))) /\
  Forall (fun e =>
            exists rest,
              relativePath e = slash +:+ rest /\
              String.length (checksum e) = 64%nat /\
              all_lower_hex (checksum e) /\
              entry_line e
              = String.list_byte_of_string
                  (checksum e +:+ tab +:+ slash +:+ rest +:+ newline))
         (manifest_entries os config (Present (Dir l rderr))).
Proof.
  intros Hne Hs H. apply loadFolderData_Done in H as (_ & Hb & _).
  split; [exact Hb|].
  unfold manifest_entries.
  destruct (sorted_view_Dir l rderr) as [l' ->].
  pose proof (entries_of_root_dir os config l' rderr Hne Hs) as H1.
  pose proof (entries_of_checksums os config (Dir l' rderr)
                (GameFolder config)) as H2.
  rewrite Forall_forall in H1, H2. apply Forall_forall. intros e He.
  destruct (H1 e He) as [rest Hr]. destruct (H2 e He) as [Hlen Hhex].
  exists rest. repeat split; try assumption.
  unfold entry_line, Sprintf_line. now rewrite Hr.
Qed.

Lemma relative_paths_witness :
  GameFolder sample_config <> EmptyString /\
  strings.HasSuffix (GameFolder sample_config)
    (filepath.Separator filepath.unix) = false /\
  loadFolderData filepath.unix sample_config
    (Present (Dir [("a.txt", File (Opened hello None))] None))
    folderData_zero = Done (tt, hello_manifest) /\
  ChecksumsBody hello_manifest
  = serialize (manifest_entries filepath.unix sample_config
                 (Present (Dir [("a.txt", File (Opened hello None))] None)))
  /\
  Forall (fun e =>
            exists rest,
              relativePath e = slash +:+ rest /\
              String.length (checksum e) = 64%nat /\
              all_lower_hex (checksum e) /\
              entry_line e
              = String.list_byte_of_string
                  (checksum e +:+ tab +:+ slash +:+ rest +:+ newline))
         (manifest_entries filepath.unix sample_config
            (Present (Dir [("a.txt", File (Opened hello None))] None))).
Proof.
  split; [discriminate|]. split; [reflexivity|].
  split; [vm_compute; reflexivity|].
  apply (relative_paths_begin_with_slash filepath.unix sample_config
           [("a.txt", File (Opened hello None))] None tt hello_manifest).
  - discriminate.
  - reflexivity.
  - vm_compute; reflexivity.
Defined.

(** Claim C10 fails as stated: with the file-system root [/] as game
    folder the build succeeds and the entry of [a.txt] has the relative
    path [a.txt], without a leading slash. *)
Lemma root_folder_paths_have_no_slash :
  loadFolderData filepath.unix root_config (Present hello_dir)
    folderData_zero = Done (tt, root_manifest) /\
  ChecksumsBody root_manifest
  = serialize (manifest_entries filepath.unix root_config
                 (Present hello_dir)) /\
  ~ Forall (fun e => exists rest, relativePath e = slash +:+ rest)
      (manifest_entries filepath.unix root_config (Present hello_dir)).
Proof.
  split; [vm_compute; reflexivity|]. split; [vm_compute; reflexivity|].
  intros H.
  assert (E : map relativePath
                (manifest_entries filepath.unix root_config
                   (Present hello_dir)) = ["a.txt"])
    by (vm_compute; reflexivity).
  apply (proj2 (Forall_map relativePath
                  (fun p => exists rest, p = slash +:+ rest) _)) in H.
  rewrite E in H. inversion H as [|p ps [rest Hr] _]; subst.
  unfold slash in Hr. rewrite app_String in Hr. discriminate Hr.
Qed.

(** ** The example tree *)

Lemma Join_a_txt_not_marker os path :
  strings.HasSuffix (filepath.Join os path "a.txt") ".gitkeep" = false.
Proof.
  apply HasSuffix_false_last; [discriminate|].
  destruct (Join_ends_with_name os path "a.txt") as [pre ->].
  rewrite last_char_app by discriminate. discriminate.
Qed.

Lemma rel_of_a_txt os config :
  GameFolder config <> EmptyString ->
  strings.HasSuffix (GameFolder config) (filepath.Separator os) = false ->
  rel_of config (filepath.Join os (GameFolder config) "a.txt") = "/a.txt".
Proof.
  intros Hne Hs. rewrite Join_plain by assumption.
  unfold rel_of. rewrite TrimPrefix_app, ReplaceAll_separator. reflexivity.
Qed.

Lemma hello_entries os config :
  GameFolder config <> EmptyString ->
  strings.HasSuffix (GameFolder config) (filepath.Separator os) = false ->
  manifest_entries os config (Present hello_dir)
  = [{| checksum :=
          "2cf24dba5fb0a30e26e83b2ac5b9e29e1b161e5c1fa7425e73043362938b9824";
        relativePath := "/a.txt" |}].
Proof.
  intros Hne Hs. unfold manifest_entries.
  change (filepath.sorted_view hello_dir) with hello_dir.
  unfold hello_dir. cbn [entries_of flat_map fst snd].
  rewrite Join_a_txt_not_marker, rel_of_a_txt by assumption.
  assert (Hc : checksum_of hello
    = "2cf24dba5fb0a30e26e83b2ac5b9e29e1b161e5c1fa7425e73043362938b9824")
    by (vm_compute; reflexivity).
  rewrite Hc. reflexivity.
Qed.

Lemma hello_no_io_error os config :
  walk_io_error os config (Present hello_dir) = false.
Proof.
  unfold walk_io_error.
  change (filepath.sorted_view hello_dir) with hello_dir.
  unfold hello_dir. cbn [io_error_in existsb fst snd].
  rewrite Join_a_txt_not_marker. reflexivity.
Qed.

(** Claim C4, amended: for the tree that holds only [a.txt] with content
    [hello], below a game folder that does not end with the separator, the
    manifest has one entry, the body is the line
    [2cf2...9824 TAB /a.txt LF] with the full 64-digit digest, and the
    validator is the quoted digest of exactly that line. *)
Theorem hello_tree_manifest os config :
  GameFolder config <> EmptyString ->
  strings.HasSuffix (GameFolder config) (filepath.Separator os) = false ->
  loadFolderData os config (Present hello_dir) folderData_zero
  = Done (tt, hello_manifest) /\
  length (manifest_entries os config (Present hello_dir)) = 1%nat /\
  ChecksumHeader hello_manifest
  = dquote +:+ hex.EncodeToString
      (sha256.Sum256
         (String.list_byte_of_string
            ("2cf24dba5fb0a30e26e83b2ac5b9e29e1b161e5c1fa7425e73043362938b9824"
             +:+ tab +:+ "/a.txt" +:+ newline)))
      +:+ dquote.
Proof.
  intros Hne Hs. split; [|split].
  - pose proof (loadFolderData_spec os config (Present hello_dir)
                  folderData_zero) as H.
    unfold build_result in H.
    destruct (loadFolderData _ _ _ _) as [[[] fd]|e|].
    + destruct H as (_ & Hb & Hh).
      rewrite hello_entries in Hb, Hh by assumption.
      destruct fd as [hd bd].
      cbn [ChecksumsBody ChecksumHeader folderData_zero app] in Hb, Hh.
      subst hd bd.
      vm_compute. reflexivity.
    + rewrite hello_no_io_error in H. discriminate.
    + contradiction.
  - rewrite hello_entries by assumption. reflexivity.
  - vm_compute. reflexivity.
Qed.

Lemma hello_tree_manifest_witness :
  GameFolder sample_config <> EmptyString /\
  strings.HasSuffix (GameFolder sample_config)
    (filepath.Separator filepath.unix) = false /\
  loadFolderData filepath.unix sample_config (Present hello_dir)
    folderData_zero = Done (tt, hello_manifest) /\
  length (manifest_entries filepath.unix sample_config (Present hello_dir))
  = 1%nat /\
  ChecksumHeader hello_manifest
  = dquote +:+ hex.EncodeToString
      (sha256.Sum256
         (String.list_byte_of_string
            ("2cf24dba5fb0a30e26e83b2ac5b9e29e1b161e5c1fa7425e73043362938b9824"
             +:+ tab +:+ "/a.txt" +:+ newline)))
      +:+ dquote.
Proof.
  split; [discriminate|]. split; [reflexivity|].
  apply (hello_tree_manifest filepath.unix sample_config);
    [discriminate|reflexivity].
Defined.

(** Claim C4 fails as stated: the body built for the example tree is not
    the line printed in the specification, whose digest lacks its last
    digit (71 bytes against the 72 the program writes). *)
Lemma hello_body_is_not_the_spec_line :
  loadFolderData filepath.unix sample_config (Present hello_dir)
    folderData_zero = Done (tt, hello_manifest) /\
  ChecksumsBody hello_manifest <> String.list_byte_of_string spec_line /\
  length (ChecksumsBody hello_manifest) = 72%nat /\
  length (String.list_byte_of_string spec_line) = 71%nat.
Proof.
  split; [vm_compute; reflexivity|].
  split; [|split; vm_compute; reflexivity].
  intros H. apply (f_equal length) in H. vm_compute in H. discriminate H.
Qed.

(** ** The conditional handler *)

Lemma main_header_not_empty os config fs fd :
  main os config fs = Listening fd -> ChecksumHeader fd <> EmptyString.
Proof.
  intros H. pose proof (main_spec os config fs) as Hs. rewrite H in Hs.
  destruct Hs as (_ & _ & ->). unfold dquote. rewrite app_String.
  discriminate.
Qed.

Lemma Header_Get_absent (h : http.Header) key :
  h !! http.CanonicalMIMEHeaderKey key = None ->
  http.Header_Get h key = EmptyString.
Proof. unfold http.Header_Get. now intros ->. Qed.

Lemma Header_Get_Set (h : http.Header) key value :
  http.Header_Get (http.Header_Set h key value) key = value.
Proof.
  unfold http.Header_Get, http.Header_Set. now rewrite lookup_insert_eq.
Qed.

Lemma checkHandler_fresh config fd r :
  negb (Force config) &&
  String.eqb (http.Header_Get (http.Request_Header r) "If-None-Match")
             (ChecksumHeader fd) = false ->
  serve_check config fd r
  = {| http.handlerHeader :=
         http.Header_Set ∅ "ETag" (ChecksumHeader fd);
       http.wroteHeader := true;
       http.status := http.StatusOK;
       http.sentHeader := http.Header_Set ∅ "ETag" (ChecksumHeader fd);
       http.written := ChecksumsBody fd |}.
Proof.
  intros H. unfold serve_check, checkHandler. rewrite H. reflexivity.
Qed.

Lemma checkHandler_not_modified config fd r :
  negb (Force config) &&
  String.eqb (http.Header_Get (http.Request_Header r) "If-None-Match")
             (ChecksumHeader fd) = true ->
  serve_check config fd r
  = {| http.handlerHeader := ∅;
       http.wroteHeader := true;
       http.status := http.StatusNotModified;
       http.sentHeader := ∅;
       http.written := [] |}.
Proof.
  intros H. unfold serve_check, checkHandler. rewrite H. reflexivity.
Qed.

(** Claim C1: once [main] serves, a [/check] request is answered with
    status 200, the [ETag] header set to the validator and the manifest as
    body when [Force] is set, or the request carries no [If-None-Match], or
    its value differs from the validator; and with status 304 and an empty
    body when [Force] is off and the value equals the validator. *)
Theorem check_handler_is_conditional os config fs fd r :
  main os config fs = Listening fd ->
  let token := http.Header_Get (http.Request_Header r) "If-None-Match" in
  let resp := serve_check config fd r in
  (Force config = true \/
   http.Request_Header r !! "If-None-Match" = None \/
   token <> ChecksumHeader fd ->
   http.status resp = 200 /\
   http.Header_Get (http.sentHeader resp) "ETag" = ChecksumHeader fd /\
   http.written resp = ChecksumsBody fd) /\
  (Force config = false /\
   http.Request_Header r !! "If-None-Match" <> None /\
   token = ChecksumHeader fd ->
   http.status resp = 304 /\ http.written resp = []).
Proof.
  intros Hm token resp. subst token resp.
  pose proof (main_header_not_empty os config fs fd Hm) as Hne.
  split.
  - intros Hc.
    rewrite checkHandler_fresh; cbn [http.status http.sentHeader http.written].
    + rewrite Header_Get_Set. auto.
    + destruct Hc as [Hf|[Ha|Hd]].
      * now rewrite Hf.
      * rewrite (Header_Get_absent _ "If-None-Match") by exact Ha.
        apply andb_false_iff. right. apply String.eqb_neq. congruence.
      * apply andb_false_iff. right. now apply String.eqb_neq.
  - intros (Hf & _ & Ht).
    rewrite checkHandler_not_modified; [auto|].
    rewrite Hf, Ht. simpl. apply String.eqb_refl.
Qed.

Lemma check_handler_witness :
  main filepath.unix sample_config (Present hello_dir)
  = Listening hello_manifest /\
  let token :=
    http.Header_Get (http.Request_Header hello_request) "If-None-Match" in
  let resp := serve_check sample_config hello_manifest hello_request in
  (Force sample_config = true \/
   http.Request_Header hello_request !! "If-None-Match" = None \/
   token <> ChecksumHeader hello_manifest ->
   http.status resp = 200 /\
   http.Header_Get (http.sentHeader resp) "ETag"
   = ChecksumHeader hello_manifest /\
   http.written resp = ChecksumsBody hello_manifest) /\
  (Force sample_config = false /\
   http.Request_Header hello_request !! "If-None-Match" <> None /\
   token = ChecksumHeader hello_manifest ->
   http.status resp = 304 /\ http.written resp = []).
Proof.
  split; [vm_compute; reflexivity|].
  apply (check_handler_is_conditional filepath.unix sample_config
           (Present hello_dir) hello_manifest hello_request).
  vm_compute; reflexivity.
Defined.

(** ** Directory listings and their sorted view *)

#[global] Instance name_le_trans : Transitive filepath.name_le.
Proof.
  intros a b c. unfold filepath.name_le. intros H1 H2. now transitivity b.1.
Qed.

#[global] Instance name_le_total : Total filepath.name_le.
Proof. intros a b. unfold filepath.name_le. apply total, _. Qed.

Lemma sorted_view_Dir_eq l rderr :
  filepath.sorted_view (Dir l rderr)
  = Dir (merge_sort filepath.name_le (map view_entry l)) rderr.
Proof. reflexivity. Qed.

Lemma map_fst_view l : map fst (map view_entry l) = map fst l.
Proof. induction l as [|[n c] l IH]; simpl; [reflexivity|]. now rewrite IH. Qed.

Lemma unique_names_Dir l rderr :
  unique_names (Dir l rderr)
  <-> NoDup (map fst l) /\ Forall (fun nc => unique_names nc.2) l.
Proof.
  cbn [unique_names]. split; intros [Hn Ha]; (split; [exact Hn|]).
  - induction l as [|nc l IH]; constructor.
    + apply Ha.
    + apply IH; [now inversion Hn|apply Ha].
  - induction Ha as [|nc l Hc Hl IH]; [exact I|]. split; [exact Hc|].
    apply IH. now inversion Hn.
Qed.

(** In a listing without repeated names an entry is known by its name. *)
Lemma NoDup_fst_inj (l : list (string * node)) x y :
  NoDup (map fst l) -> x ∈ l -> y ∈ l -> x.1 = y.1 -> x = y.
Proof.
  induction l as [|z l IH]; intros Hn Hx Hy Hxy.
  - inversion Hx.
  - apply NoDup_cons in Hn as [Hz Hn].
    apply elem_of_cons in Hx as [->|Hx]; apply elem_of_cons in Hy as [->|Hy].
    + reflexivity.
    + exfalso. apply Hz. rewrite Hxy. apply list_elem_of_In.
      apply in_map. now apply list_elem_of_In.
    + exfalso. apply Hz. rewrite <- Hxy. apply list_elem_of_In.
      apply in_map. now apply list_elem_of_In.
    + now apply IH.
Qed.

(** Sorting by name does not depend on the order a listing comes in. *)
Lemma merge_sort_listing (l1 l2 : list (string * node)) :
  NoDup (map fst l1) -> l1 ≡ₚ l2 ->
  merge_sort filepath.name_le l1 = merge_sort filepath.name_le l2.
Proof.
  intros Hn Hp.
  apply (StronglySorted_unique_strong filepath.name_le).
  - intros x1 x2 H1 H2 R12 R21.
    rewrite merge_sort_Permutation in H1, H2. rewrite <- Hp in H2.
    apply (NoDup_fst_inj l1); try assumption.
    unfold filepath.name_le in *. now apply (anti_symm String.le).
  - apply StronglySorted_merge_sort; apply _.
  - apply StronglySorted_merge_sort; apply _.
  - now rewrite !merge_sort_Permutation.
Qed.

Lemma same_tree_sorted_view :
  forall d1 d2, same_tree d1 d2 ->
    unique_names d1 ->
    unique_names d2 /\ filepath.sorted_view d1 = filepath.sorted_view d2.
Proof.
  apply (same_tree_mut
    (fun d1 d2 =>
       unique_names d1 ->
       unique_names d2 /\ filepath.sorted_view d1 = filepath.sorted_view d2)
    (fun l1 l2 =>
       NoDup (map fst l1) -> Forall (fun nc => unique_names nc.2) l1 ->
       Forall (fun nc => unique_names nc.2) l2 /\
       map view_entry l1 ≡ₚ map view_entry l2)).
  - intros o _. split; [exact I|reflexivity].
  - intros l1 l2 rderr _ IH Hu.
    apply unique_names_Dir in Hu as [Hn Ha].
    destruct (IH Hn Ha) as [Ha2 Hp]. split.
    + apply unique_names_Dir. split; [|exact Ha2].
      rewrite <- (map_fst_view l2), <- Hp, map_fst_view. exact Hn.
    + rewrite !sorted_view_Dir_eq. f_equal.
      apply merge_sort_listing; [now rewrite map_fst_view|exact Hp].
  - intros _ _. split; constructor.
  - intros name d1 d2 l1 l2 _ IHd _ IHl Hn Ha.
    simpl in Hn. apply NoDup_cons in Hn as [_ Hn].
    apply Forall_cons in Ha as [Hd Ha].
    destruct (IHd Hd) as [Hd2 Hv]. destruct (IHl Hn Ha) as [Ha2 Hp].
    split; [constructor; assumption|].
    simpl. unfold view_entry at 1 3. simpl. rewrite Hv. now constructor.
  - intros a b l1 l2 _ IHl Hn Ha.
    simpl in Hn. apply NoDup_cons in Hn as [_ Hn].
    apply NoDup_cons in Hn as [_ Hn].
    apply Forall_cons in Ha as [Hua Ha]. apply Forall_cons in Ha as [Hub Ha].
    destruct (IHl Hn Ha) as [Ha2 Hp].
    split; [repeat constructor; assumption|].
    simpl. rewrite Hp. apply perm_swap.
  - intros l1 l2 l3 _ IH12 _ IH23 Hn Ha.
    destruct (IH12 Hn Ha) as [Ha2 Hp12].
    assert (Hn2 : NoDup (map fst l2))
      by (rewrite <- (map_fst_view l2), <- Hp12, map_fst_view; exact Hn).
    destruct (IH23 Hn2 Ha2) as [Ha3 Hp23].
    split; [exact Ha3|]. now rewrite Hp12.
Qed.

(** Claim C3: two builds over the same tree give the same result, byte for
    byte, also when the operating system enumerates the directories in
    another order the second time. *)
Theorem build_is_deterministic os config d1 d2 fd0 :
  same_tree d1 d2 -> unique_names d1 ->
  loadFolderData os config (Present d1) fd0
  = loadFolderData os config (Present d2) fd0.
Proof.
  intros Hs Hu. destruct (same_tree_sorted_view d1 d2 Hs Hu) as [_ Hv].
  unfold loadFolderData, filepath.WalkDir. now rewrite Hv.
Qed.

Lemma build_is_deterministic_witness :
  same_tree two_files two_files_listed_otherwise /\
  unique_names two_files /\
  loadFolderData filepath.unix sample_config (Present two_files)
    folderData_zero
  = loadFolderData filepath.unix sample_config
      (Present two_files_listed_otherwise) folderData_zero.
Proof.
  assert (Hs : same_tree two_files two_files_listed_otherwise)
    by (apply same_Dir, same_swap, same_nil).
  assert (Hu : unique_names two_files).
  { split; [|simpl; tauto].
    apply (bool_decide_unpack _). vm_compute. exact I. }
  split; [exact Hs|]. split; [exact Hu|].
  apply (build_is_deterministic filepath.unix sample_config two_files
           two_files_listed_otherwise folderData_zero Hs Hu).
Defined.

(** ** Counting requests *)

Lemma count_app f l1 l2 : count f (l1 ++ l2) = (count f l1 + count f l2)%nat.
Proof. induction l1 as [|p l1 IH]; simpl; [reflexivity|]. rewrite IH. lia. Qed.

(** Replacing the state of one request changes a count by that request
    alone. *)
Lemma count_insert f (l : list pc) i p q :
  l !! i = Some p ->
  (count f (<[i := q]> l) + bit (f p) = count f l + bit (f q))%nat.
Proof.
  revert i. induction l as [|x l IH]; intros i Hi; [discriminate|].
  destruct i as [|i]; simpl in *.
  - injection Hi as ->. unfold bit. lia.
  - specialize (IH i Hi). lia.
Qed.

Lemma count_pos f (l : list pc) i p :
  l !! i = Some p -> f p = true -> (0 < count f l)%nat.
Proof.
  revert i. induction l as [|x l IH]; intros i Hi Hf; [discriminate|].
  destruct i as [|i]; simpl in *.
  - injection Hi as ->. rewrite Hf. lia.
  - specialize (IH i Hi Hf). lia.
Qed.

Lemma running_le_holding s : (running s <= holding s)%nat.
Proof.
  unfold running, holding. induction (reqs s) as [|p l IH]; simpl; [lia|].
  destruct p; simpl; lia.
Qed.

(** ** The invariant of the gate *)

Lemma gate_inv_init ch : chan_len ch = 0%nat -> gate_inv ch (sys_init ch).
Proof. intros H. unfold gate_inv, sys_init, holding. simpl. lia. Qed.

Lemma gate_inv_step ch s s' : gate_inv ch s -> step s s' -> gate_inv ch s'.
Proof.
  intros (Hc & Hl & Hb) Hs. unfold gate_inv, holding in *.
  destruct Hs as [s|s i Hi Hlt|s i j x Hi Hj H0|s i x Hi|s i x Hi Hpos];
    cbn [sem reqs set_len chan_cap chan_len].
  - rewrite count_app. simpl. lia.
  - pose proof (count_insert (fun p => is_InHandler p || is_AtRecv p)
                  (reqs s) i AtSend InHandler Hi) as H. simpl in H. lia.
  - pose proof (count_pos (fun p => is_InHandler p || is_AtRecv p)
                  (reqs s) j (AtRecv x) Hj eq_refl) as H. lia.
  - pose proof (count_insert (fun p => is_InHandler p || is_AtRecv p)
                  (reqs s) i InHandler (AtRecv x) Hi) as H. simpl in H. lia.
  - pose proof (count_insert (fun p => is_InHandler p || is_AtRecv p)
                  (reqs s) i (AtRecv x) (Finished x) Hi) as H.
    simpl in H. lia.
Qed.

Lemma gate_inv_reachable ch s :
  chan_len ch = 0%nat -> rtc step (sys_init ch) s -> gate_inv ch s.
Proof.
  intros H0 Hr. revert s Hr. apply rtc_ind_r.
  - now apply gate_inv_init.
  - intros y z _ Hs Hy. now apply (gate_inv_step ch y z).
Qed.

Lemma make_chan_Some max ch :
  make_chan max = Some ch ->
  0 <= max /\ chan_cap ch = Z.to_nat max /\ chan_len ch = 0%nat.
Proof.
  unfold make_chan. destruct (Z.ltb_spec max 0); [discriminate|].
  intros [= <-]. simpl. lia.
Qed.

(** Claim C8: behind a limiter of capacity [max], in every reachable state
    at most [max] requests run the inner handler; the buffer of [sem] holds
    exactly one element per request that has entered and not yet released;
    when [max] requests run, no step lets a waiting request in; a request
    that has left the handler, by return or by panic, can always release,
    and its release frees exactly one slot; and a running handler can leave
    either way. *)
Theorem limiter_admits_at_most_max max ch s :
  concurrencyLimiter max = Some ch ->
  rtc step (sys_init ch) s ->
  (running s <= Z.to_nat max)%nat /\
  chan_len (sem s) = holding s /\
  (running s = Z.to_nat max ->
   forall s' i, step s s' ->
     reqs s !! i = Some AtSend -> reqs s' !! i = Some AtSend) /\
  (forall i x, reqs s !! i = Some (AtRecv x) ->
     exists s', step s s' /\
       reqs s' !! i = Some (Finished x) /\
       holding s = S (holding s') /\
       chan_len (sem s) = S (chan_len (sem s'))) /\
  (forall i, reqs s !! i = Some InHandler ->
     forall x, step s {| sem := sem s; reqs := <[i := AtRecv x]> (reqs s) |}).
Proof.
  intros Hm Hr. apply make_chan_Some in Hm as (Hmax & Hcap & Hlen).
  pose proof (gate_inv_reachable ch s Hlen Hr) as (Hc & Hl & Hb).
  pose proof (running_le_holding s) as Hrh.
  split; [lia|]. split; [exact Hl|]. split; [|split].
  - intros Hfull s' i Hs Hi.
    destruct Hs as [s|s k Hk Hlt|s k j x Hk Hj H0|s k x Hk|s k x Hk Hpos];
      cbn [reqs].
    + rewrite lookup_app_l; [exact Hi|]. now apply lookup_lt_Some in Hi.
    + lia.
    + pose proof (count_pos (fun p => is_InHandler p || is_AtRecv p)
                    (reqs s) j (AtRecv x) Hj eq_refl) as H.
      unfold holding in Hl. lia.
    + destruct (decide (k = i)) as [->|Hne]; [congruence|].
      now rewrite list_lookup_insert_ne.
    + destruct (decide (k = i)) as [->|Hne]; [congruence|].
      now rewrite list_lookup_insert_ne.
  - intros i x Hi.
    pose proof (count_pos (fun p => is_InHandler p || is_AtRecv p)
                  (reqs s) i (AtRecv x) Hi eq_refl) as Hpos.
    assert (Hlen' : (0 < chan_len (sem s))%nat) by (unfold holding in Hl; lia).
    eexists. split; [apply (step_recv s i x Hi Hlen')|].
    cbn [reqs sem set_len chan_len]. split; [|split].
    + apply list_lookup_insert_eq. now apply lookup_lt_Some in Hi.
    + pose proof (count_insert (fun p => is_InHandler p || is_AtRecv p)
                    (reqs s) i (AtRecv x) (Finished x) Hi) as H.
      unfold holding. cbn [reqs]. simpl in H. lia.
    + lia.
  - intros i Hi x. now apply step_exit.
Qed.

Lemma one_in_one_waiting_reachable :
  rtc step (sys_init one_slot) one_in_one_waiting.
Proof.
  apply (rtc_l _ _ {| sem := one_slot; reqs := [AtSend] |});
    [exact (step_arrive (sys_init one_slot))|].
  apply (rtc_l _ _ {| sem := one_slot; reqs := [AtSend; AtSend] |});
    [exact (step_arrive {| sem := one_slot; reqs := [AtSend] |})|].
  apply rtc_once.
  apply (step_send {| sem := one_slot; reqs := [AtSend; AtSend] |} 0);
    [reflexivity|simpl; lia].
Defined.

Lemma limiter_admits_witness :
  concurrencyLimiter 1 = Some one_slot /\
  rtc step (sys_init one_slot) one_in_one_waiting /\
  (running one_in_one_waiting <= Z.to_nat 1)%nat /\
  chan_len (sem one_in_one_waiting) = holding one_in_one_waiting /\
  (running one_in_one_waiting = Z.to_nat 1 ->
   forall s' i, step one_in_one_waiting s' ->
     reqs one_in_one_waiting !! i = Some AtSend ->
     reqs s' !! i = Some AtSend) /\
  (forall i x, reqs one_in_one_waiting !! i = Some (AtRecv x) ->
     exists s', step one_in_one_waiting s' /\
       reqs s' !! i = Some (Finished x) /\
       holding one_in_one_waiting = S (holding s') /\
       chan_len (sem one_in_one_waiting) = S (chan_len (sem s'))) /\
  (forall i, reqs one_in_one_waiting !! i = Some InHandler ->
     forall x,
       step one_in_one_waiting
         {| sem := sem one_in_one_waiting;
            reqs := <[i := AtRecv x]> (reqs one_in_one_waiting) |}).
Proof.
  split; [reflexivity|]. split; [exact one_in_one_waiting_reachable|].
  apply (limiter_admits_at_most_max 1 one_slot one_in_one_waiting);
    [reflexivity|exact one_in_one_waiting_reachable].
Defined.

(** ** An unbuffered gate *)

Lemma count_blocked (l : list pc) :
  Forall (fun p => p = AtSend) l -> count is_InHandler l = 0%nat.
Proof. induction 1 as [|p l -> _ IH]; [reflexivity|exact IH]. Qed.

Lemma all_blocked_step s s' : all_blocked s -> step s s' -> all_blocked s'.
Proof.
  intros (Hc & Hl & Ha) Hs.
  assert (Hall : forall i p, reqs s !! i = Some p -> p = AtSend).
  { intros i p Hi. rewrite Forall_forall in Ha. apply Ha.
    eapply list_elem_of_lookup_2. exact Hi. }
  destruct Hs as [s|s i Hi Hlt|s i j x Hi Hj H0|s i x Hi|s i x Hi Hpos].
  - unfold all_blocked. cbn [sem reqs]. repeat split; try assumption.
    apply Forall_app. split; [exact Ha|]. now constructor.
  - lia.
  - apply Hall in Hj. discriminate.
  - apply Hall in Hi. discriminate.
  - apply Hall in Hi. discriminate.
Qed.

Lemma all_blocked_reachable s :
  rtc step (sys_init {| chan_cap := 0; chan_len := 0 |}) s -> all_blocked s.
Proof.
  revert s. apply rtc_ind_r.
  - unfold all_blocked, sys_init. simpl. auto.
  - intros y z _ Hs Hy. now apply (all_blocked_step y z).
Qed.

(** Claim C9: [MaxClients = 0] is accepted without any check and gives an
    unbuffered channel, behind which no request ever reaches the inner
    handler: in every reachable state all requests stand at their send and
    the only possible step is the arrival of one more request. *)
Theorem zero_capacity_blocks_every_request config :
  MaxClients config = 0 ->
  patch_limiter config = Some {| chan_cap := 0; chan_len := 0 |} /\
  forall s,
    rtc step (sys_init {| chan_cap := 0; chan_len := 0 |}) s ->
    running s = 0%nat /\
    (forall i p, reqs s !! i = Some p -> p = AtSend) /\
    (forall s', step s s' -> reqs s' = reqs s ++ [AtSend]).
Proof.
  intros Hm. split.
  - unfold patch_limiter, concurrencyLimiter. rewrite Hm. reflexivity.
  - intros s Hr. pose proof (all_blocked_reachable s Hr) as (Hc & Hl & Ha).
    assert (Hall : forall i p, reqs s !! i = Some p -> p = AtSend).
    { intros i p Hi. rewrite Forall_forall in Ha. apply Ha.
      eapply list_elem_of_lookup_2. exact Hi. }
    split; [|split].
    + unfold running. now apply count_blocked.
    + exact Hall.
    + intros s' Hs.
      destruct Hs as [s|s i Hi Hlt|s i j x Hi Hj H0|s i x Hi|s i x Hi Hpos].
      * reflexivity.
      * lia.
      * apply Hall in Hj. discriminate.
      * apply Hall in Hi. discriminate.
      * apply Hall in Hi. discriminate.
Qed.

Lemma zero_capacity_witness :
  MaxClients unlimited_config = 0 /\
  patch_limiter unlimited_config = Some {| chan_cap := 0; chan_len := 0 |} /\
  forall s,
    rtc step (sys_init {| chan_cap := 0; chan_len := 0 |}) s ->
    running s = 0%nat /\
    (forall i p, reqs s !! i = Some p -> p = AtSend) /\
    (forall s', step s s' -> reqs s' = reqs s ++ [AtSend]).
Proof.
  split; [reflexivity|].
  apply (zero_capacity_blocks_every_request unlimited_config). reflexivity.
Defined.

(* ===================================================================== *)
(** * Further properties of the program *)
(* ===================================================================== *)

(** ** Known answers of the digest *)

(** The model of [crypto/sha256] on the test messages of FIPS 180: no
    bytes, [abc], and the 56-byte message whose padding needs a second
    chunk. *)
Lemma sha256_known_answers :
  hex.EncodeToString (sha256.Sum256 [])
  = "e3b0c44298fc1c149afbf4c8996fb92427ae41e4649b934ca495991b7852b855" /\
  hex.EncodeToString (sha256.Sum256 (String.list_byte_of_string "abc"))
  = "ba7816bf8f01cfea414140de5dae2223b00361a396177a9cb410ff61f20015ad" /\
  hex.EncodeToString
    (sha256.Sum256
       (String.list_byte_of_string
          "abcdbcdecdefdefgefghfghighijhijkijkljklmklmnlmnomnopnopq"))
  = "248d6a61d20638b8e5c026930c3e6039a33ce45964ff2167f6ecedd419db06c1" /\
  hex.EncodeToString
    (sha256.Sum256 (replicate 130 (byte_of_Z 97)))
  = "1e3c4f4750c8c29bbfa9ced317788176b156d342e57f7777f62fd7221a44312f".
Proof. repeat split; vm_compute; reflexivity. Qed.

(** ** The error the build ends with *)

Lemma walkDir_first_error os config : forall d path st,
  match filepath.walkDir os (visit config) path d st with
  | Done (r, _) => r = None /\ first_error_in os path d = None
  | Fatal e => first_error_in os path d = Some e
  | Panic => False
  end.
Proof.
  induction d as [o|l rderr IH] using node_ind; intros path st.
  - rewrite walkDir_File. unfold visit. simpl.
    destruct (strings.HasSuffix path ".gitkeep"); simpl; [auto|].
    destruct o as [e|data [e|]]; simpl; auto.
  - rewrite walkDir_Dir. destruct rderr as [e|]; [reflexivity|].
    cbn [first_error_in].
    revert st. induction IH as [|[name d1] l Hd1 _ IHl]; intros st.
    + simpl. auto.
    + rewrite range_dirs_cons. cbn [fst snd].
      specialize (Hd1 (filepath.Join os path name) st). simpl in Hd1.
      destruct (filepath.walkDir _ _ _ _ _) as [[r st1]|e|]; [|simpl|tauto].
      * destruct Hd1 as (-> & ->). apply IHl.
      * now rewrite Hd1.
Qed.

(** Property X1: with the callback of [loadFolderData], [WalkDir] never
    returns an error and never panics: it returns [nil], or the callback
    has ended the process through [log.Fatal].  The [err != nil] test
    after the walk cannot fire. *)
Theorem walk_returns_nil_or_exits os config root fs st :
  match filepath.WalkDir os (visit config) root fs st with
  | Done (r, _) => r = None
  | Fatal _ => True
  | Panic => False
  end.
Proof.
  unfold filepath.WalkDir, bind. destruct fs as [e|n]; [exact I|].
  pose proof (walkDir_first_error os config (filepath.sorted_view n) root st)
    as H.
  destruct (filepath.walkDir _ _ _ _ _) as [[r st1]|e|]; [|exact I|exact H].
  destruct H as (-> & _). reflexivity.
Qed.

(** Property X3: [main] exits with error [e] exactly when [e] is the first
    I/O error in traversal order (directories before their entries,
    entries by name, marker files skipped): the build fails fast and
    reports that error. *)
Theorem build_reports_first_error os config fs e :
  main os config fs = Exited e <-> first_error os config fs = Some e.
Proof.
  unfold main, loadFolderData, filepath.WalkDir, bind, first_error.
  destruct fs as [e0|n].
  - simpl. split; congruence.
  - pose proof (walkDir_first_error os config (filepath.sorted_view n)
                  (GameFolder config)
                  {| folderData := folderData_zero; hasher := sha256.New |})
      as H.
    destruct (filepath.walkDir _ _ _ _ _) as [[r st1]|e1|].
    + destruct H as (-> & ->). split; discriminate.
    + rewrite H. split; congruence.
    + contradiction.
Qed.

(** Property X2: when no I/O error lies on the way of the traversal,
    [main] reaches its listeners, and the body it serves holds the line of
    every entry of the tree. *)
Theorem build_succeeds_without_io_error os config fs :
  walk_io_error os config fs = false ->
  exists fd,
    main os config fs = Listening fd /\
    ChecksumsBody fd = serialize (manifest_entries os config fs).
Proof.
  intros He. pose proof (main_spec os config fs) as H.
  destruct (main os config fs) as [e| |fd].
  - congruence.
  - contradiction.
  - exists fd. split; [reflexivity|apply H].
Qed.

Lemma build_succeeds_witness :
  walk_io_error filepath.unix sample_config (Present only_markers) = false /\
  exists fd,
    main filepath.unix sample_config (Present only_markers) = Listening fd /\
    ChecksumsBody fd
    = serialize (manifest_entries filepath.unix sample_config
                   (Present only_markers)).
Proof.
  split; [vm_compute; reflexivity|].
  apply (build_succeeds_without_io_error filepath.unix sample_config
           (Present only_markers)).
  vm_compute; reflexivity.
Defined.

(** Property X4: [loadFolderData] appends to the body already in
    [folderData] and hashes only the lines it adds: a second build over the
    same tree succeeds again, leaves the body doubled and the validator
    unchanged. *)
Theorem second_build_appends os config fs u1 fd1 :
  loadFolderData os config fs folderData_zero = Done (u1, fd1) ->
  exists fd2,
    loadFolderData os config fs fd1 = Done (tt, fd2) /\
    ChecksumsBody fd2 = ChecksumsBody fd1 ++ ChecksumsBody fd1 /\
    ChecksumHeader fd2 = ChecksumHeader fd1.
Proof.
  intros H1. apply loadFolderData_Done in H1 as (He & Hb & Hh).
  pose proof (loadFolderData_spec os config fs fd1) as H2.
  unfold build_result in H2.
  destruct (loadFolderData os config fs fd1) as [[[] fd2]|e|].
  - exists fd2. destruct H2 as (_ & Hb2 & Hh2).
    split; [reflexivity|]. split.
    + rewrite Hb2. f_equal. symmetry. exact Hb.
    + now rewrite Hh2, Hh.
  - congruence.
  - contradiction.
Qed.

Lemma second_build_witness :
  loadFolderData filepath.unix sample_config (Present hello_dir)
    folderData_zero = Done (tt, hello_manifest) /\
  exists fd2,
    loadFolderData filepath.unix sample_config (Present hello_dir)
      hello_manifest = Done (tt, fd2) /\
    ChecksumsBody fd2
    = ChecksumsBody hello_manifest ++ ChecksumsBody hello_manifest /\
    ChecksumHeader fd2 = ChecksumHeader hello_manifest.
Proof.
  split; [vm_compute; reflexivity|].
  apply (second_build_appends filepath.unix sample_config (Present hello_dir)
           tt hello_manifest).
  vm_compute; reflexivity.
Defined.

(** Property X5: the validator of a successful build has 66 characters: a
    double quote, 64 lower-case hexadecimal digits, a double quote. *)
Theorem validator_is_quoted_hex os config fs fd :
  main os config fs = Listening fd ->
  String.length (ChecksumHeader fd) = 66%nat /\
  exists digits,
    ChecksumHeader fd = dquote +:+ digits +:+ dquote /\
    String.length digits = 64%nat /\
    all_lower_hex digits.
Proof.
  intros H. pose proof (main_spec os config fs) as Hs. rewrite H in Hs.
  destruct Hs as (_ & _ & Hh).
  assert (Hl : String.length
                 (hex.EncodeToString (sha256.Sum256 (ChecksumsBody fd)))
               = 64%nat).
  { rewrite EncodeToString_length. unfold sha256.Sum256.
    now rewrite checkSum_length. }
  split.
  - rewrite Hh, !string_app_length, Hl. reflexivity.
  - eexists. split; [exact Hh|]. split; [exact Hl|].
    apply EncodeToString_lower_hex.
Qed.

Lemma validator_witness :
  main filepath.unix sample_config (Present hello_dir)
  = Listening hello_manifest /\
  String.length (ChecksumHeader hello_manifest) = 66%nat /\
  exists digits,
    ChecksumHeader hello_manifest = dquote +:+ digits +:+ dquote /\
    String.length digits = 64%nat /\
    all_lower_hex digits.
Proof.
  split; [vm_compute; reflexivity|].
  apply (validator_is_quoted_hex filepath.unix sample_config
           (Present hello_dir) hello_manifest).
  vm_compute; reflexivity.
Defined.

(** Property X8: a successful build over a tree without included files
    (empty, or holding only directories and marker files) gives the empty
    body and the quoted SHA-256 digest of no bytes as validator. *)
Theorem manifest_without_files os config fs fd :
  main os config fs = Listening fd ->
  manifest_entries os config fs = [] ->
  ChecksumsBody fd = [] /\ ChecksumHeader fd = empty_validator.
Proof.
  intros H He. pose proof (main_spec os config fs) as Hs. rewrite H in Hs.
  destruct Hs as (_ & Hb & Hh). rewrite He in Hb. simpl in Hb.
  split; [exact Hb|]. rewrite Hh, Hb. vm_compute. reflexivity.
Qed.

Lemma manifest_without_files_witness :
  main filepath.unix sample_config (Present only_markers)
  = Listening {| ChecksumHeader := empty_validator; ChecksumsBody := [] |} /\
  manifest_entries filepath.unix sample_config (Present only_markers) = [] /\
  ChecksumsBody {| ChecksumHeader := empty_validator; ChecksumsBody := [] |}
  = [] /\
  ChecksumHeader {| ChecksumHeader := empty_validator; ChecksumsBody := [] |}
  = empty_validator.
Proof.
  split; [vm_compute; reflexivity|]. split; [vm_compute; reflexivity|].
  apply (manifest_without_files filepath.unix sample_config
           (Present only_markers)
           {| ChecksumHeader := empty_validator; ChecksumsBody := [] |});
    vm_compute; reflexivity.
Defined.

(** Property X9: when the game folder names a readable regular file whose
    path does not end with [.gitkeep], the build succeeds and adds one line
    for that file, with an empty relative path. *)
Theorem game_folder_that_is_a_file os config data fd0 :
  strings.HasSuffix (GameFolder config) ".gitkeep" = false ->
  loadFolderData os config (Present (File (Opened data None))) fd0
  = Done (tt,
          {| ChecksumHeader :=
               dquote +:+ hex.EncodeToString
                 (sha256.Sum256
                    (String.list_byte_of_string
                       (checksum_of data +:+ tab +:+ newline)))
               +:+ dquote;
             ChecksumsBody :=
               ChecksumsBody fd0 ++
               String.list_byte_of_string
                 (checksum_of data +:+ tab +:+ newline) |}).
Proof.
  intros Hs.
  pose proof (loadFolderData_spec os config (Present (File (Opened data None)))
                fd0) as H.
  unfold build_result, walk_io_error, manifest_entries in H.
  cbn [filepath.sorted_view io_error_in entries_of] in H.
  rewrite Hs in H. cbn [negb andb] in H.
  unfold rel_of in H. rewrite TrimPrefix_self in H.
  change (strings.ReplaceAll EmptyString backslash slash) with EmptyString in H.
  unfold serialize, entry_line, Sprintf_line in H.
  cbn [map concat checksum relativePath] in H.
  rewrite app_nil_r, app_Empty in H.
  destruct (loadFolderData _ _ _ _) as [[[] fd]|e|].
  - destruct H as (_ & Hb & Hh). destruct fd as [hd bd].
    cbn [ChecksumsBody ChecksumHeader] in Hb, Hh. now subst.
  - discriminate.
  - contradiction.
Qed.

Lemma game_folder_file_witness :
  strings.HasSuffix (GameFolder file_config) ".gitkeep" = false /\
  loadFolderData filepath.unix file_config (Present (File (Opened hello None)))
    folderData_zero
  = Done (tt,
          {| ChecksumHeader :=
               dquote +:+ hex.EncodeToString
                 (sha256.Sum256
                    (String.list_byte_of_string
                       (checksum_of hello +:+ tab +:+ newline)))
               +:+ dquote;
             ChecksumsBody :=
               ChecksumsBody folderData_zero ++
               String.list_byte_of_string
                 (checksum_of hello +:+ tab +:+ newline) |}).
Proof.
  split; [reflexivity|].
  apply (game_folder_that_is_a_file filepath.unix file_config hello
           folderData_zero).
  reflexivity.
Defined.

(** ** Slashes in relative paths *)

Lemma replace_from_String c (s : string) :
  strings.replace_from backslash slash 0 (String c s)
  = (if Ascii.eqb c "092"%char then slash else String c EmptyString)
    +:+ strings.replace_from backslash slash 0 s.
Proof.
  unfold backslash at 1. cbn [strings.replace_from String.prefix].
  destruct (ascii_dec "092"%char c) as [<-|Hne].
  - rewrite prefix_Empty. reflexivity.
  - destruct (Ascii.eqb_spec c "092"%char) as [->|_]; [congruence|].
    reflexivity.
Qed.

Lemma replace_from_app (a b : string) :
  strings.replace_from backslash slash 0 (a +:+ b)
  = strings.replace_from backslash slash 0 a
    +:+ strings.replace_from backslash slash 0 b.
Proof.
  induction a as [|c a IH]; [reflexivity|].
  rewrite app_String, !replace_from_String, IH.
  now rewrite string_app_assoc.
Qed.

Lemma replace_from_no_backslash (s : string) :
  has_char "092"%char (strings.replace_from backslash slash 0 s) = false.
Proof.
  induction s as [|c s IH]; [reflexivity|].
  rewrite replace_from_String.
  destruct (Ascii.eqb_spec c "092"%char) as [->|Hne].
  - unfold slash. rewrite app_String, app_Empty. simpl. exact IH.
  - rewrite app_String, app_Empty. simpl. rewrite IH.
    destruct (Ascii.eqb_spec c "092"%char); [contradiction|reflexivity].
Qed.

Lemma replace_from_plain (s : string) :
  has_char "092"%char s = false ->
  strings.replace_from backslash slash 0 s = s.
Proof.
  induction s as [|c s IH]; intros H; [reflexivity|].
  simpl in H. apply orb_false_iff in H as [Hc Hs].
  rewrite replace_from_String, Hc, app_String, app_Empty.
  now rewrite IH.
Qed.

Lemma ReplaceAll_backslash (s : string) :
  strings.ReplaceAll s backslash slash
  = strings.replace_from backslash slash 0 s.
Proof. reflexivity. Qed.

Lemma entries_of_no_backslash os config : forall d path,
  Forall (fun e => has_char "092"%char (relativePath e) = false)
         (entries_of os config path d).
Proof.
  induction d as [o|l rderr IH] using node_ind; intros path.
  - simpl. destruct (strings.HasSuffix path ".gitkeep"); [constructor|].
    destruct o as [e|data [e|]]; try constructor; [|constructor].
    cbn [relativePath]. unfold rel_of. rewrite ReplaceAll_backslash.
    apply replace_from_no_backslash.
  - cbn [entries_of]. induction IH as [|[name d1] l Hd1 _ IHl]; simpl.
    + constructor.
    + apply Forall_app. split; [apply Hd1|exact IHl].
Qed.

(** Property X6: no relative path of the manifest contains a backslash, on
    any operating system. *)
Theorem relative_paths_have_no_backslash os config fs :
  Forall (fun e => has_char "092"%char (relativePath e) = false)
         (manifest_entries os config fs).
Proof.
  destruct fs as [e|n]; [constructor|]. apply entries_of_no_backslash.
Qed.

Lemma has_char_last c (s : string) :
  has_char c s = false -> last_char s <> Some c.
Proof.
  induction s as [|x s IH]; intros H; [discriminate|].
  simpl in H. apply orb_false_iff in H as [Hx Hs].
  destruct s as [|y s].
  - simpl. intros [= ->]. now rewrite Ascii.eqb_refl in Hx.
  - change (last_char (String x (String y s))) with (last_char (String y s)).
    now apply IH.
Qed.

Lemma plain_name_not_separator_ended os pre n :
  plain_name n ->
  strings.HasSuffix (pre +:+ n) (filepath.Separator os) = false.
Proof.
  intros (Hne & Hb & Hs).
  apply HasSuffix_false_last; [destruct os; discriminate|].
  rewrite last_char_app by exact Hne.
  destruct os; simpl; now apply has_char_last.
Qed.

(** The path the walk reaches through [names] below a folder. *)
Lemma fold_Join_plain os folder : forall names rest,
  folder <> EmptyString ->
  strings.HasSuffix (folder +:+ rest) (filepath.Separator os) = false ->
  Forall plain_name names ->
  fold_left (filepath.Join os) names (folder +:+ rest)
  = folder +:+ rest +:+ rooted (filepath.Separator os) names.
Proof.
  induction names as [|n names IH]; intros rest Hne Hs Hn.
  - simpl. now rewrite string_app_Empty_r.
  - apply Forall_cons in Hn as [Hn Hns].
    cbn [fold_left].
    rewrite Join_plain;
      [|destruct folder; [congruence|discriminate]|exact Hs].
    rewrite string_app_assoc.
    rewrite (IH (rest +:+ filepath.Separator os +:+ n) Hne); [| |exact Hns].
    + cbn [rooted fold_right]. now rewrite !string_app_assoc.
    + rewrite <- !string_app_assoc. now apply plain_name_not_separator_ended.
Qed.

Lemma replace_rooted os names :
  Forall plain_name names ->
  strings.replace_from backslash slash 0 (rooted (filepath.Separator os) names)
  = rooted slash names.
Proof.
  induction 1 as [|n names (_ & Hb & _) _ IH]; [reflexivity|].
  cbn [rooted fold_right]. rewrite !replace_from_app.
  fold (rooted (filepath.Separator os) names). fold (rooted slash names).
  rewrite IH, (replace_from_plain n Hb). f_equal.
  destruct os; reflexivity.
Qed.

(** Property X7: below a game folder that does not end with the separator,
    the relative path of the entry reached through the directory-entry
    names [n1 ... nk] is [/n1/.../nk], with forward slashes on every
    operating system, provided the names hold no slash and no backslash. *)
Theorem relative_path_joins_names_with_slashes os config names :
  GameFolder config <> EmptyString ->
  strings.HasSuffix (GameFolder config) (filepath.Separator os) = false ->
  Forall plain_name names ->
  rel_of config (fold_left (filepath.Join os) names (GameFolder config))
  = rooted slash names.
Proof.
  intros Hne Hs Hn.
  pose proof (fold_Join_plain os (GameFolder config) names EmptyString Hne)
    as H.
  rewrite !string_app_Empty_r in H. rewrite app_Empty in H.
  rewrite (H Hs Hn). unfold rel_of.
  rewrite TrimPrefix_app, ReplaceAll_backslash. now apply replace_rooted.
Qed.

Lemma relative_path_witness :
  GameFolder windows_config <> EmptyString /\
  strings.HasSuffix (GameFolder windows_config)
    (filepath.Separator filepath.windows) = false /\
  Forall plain_name ["data"; "maps"; "a.txt"] /\
  rel_of windows_config
    (fold_left (filepath.Join filepath.windows) ["data"; "maps"; "a.txt"]
       (GameFolder windows_config))
  = rooted slash ["data"; "maps"; "a.txt"].
Proof.
  assert (Hn : Forall plain_name ["data"; "maps"; "a.txt"])
    by (repeat constructor; discriminate).
  split; [discriminate|]. split; [reflexivity|]. split; [exact Hn|].
  apply (relative_path_joins_names_with_slashes filepath.windows
           windows_config ["data"; "maps"; "a.txt"]);
    [discriminate|reflexivity|exact Hn].
Defined.

(** ** Replies of the conditional handler *)

Lemma serve_check_cases config fd r :
  (negb (Force config) &&
   String.eqb (http.Header_Get (http.Request_Header r) "If-None-Match")
              (ChecksumHeader fd) = true /\
   serve_check config fd r
   = {| http.handlerHeader := ∅; http.wroteHeader := true;
        http.status := http.StatusNotModified; http.sentHeader := ∅;
        http.written := [] |}) \/
  (negb (Force config) &&
   String.eqb (http.Header_Get (http.Request_Header r) "If-None-Match")
              (ChecksumHeader fd) = false /\
   serve_check config fd r
   = {| http.handlerHeader := http.Header_Set ∅ "ETag" (ChecksumHeader fd);
        http.wroteHeader := true; http.status := http.StatusOK;
        http.sentHeader := http.Header_Set ∅ "ETag" (ChecksumHeader fd);
        http.written := ChecksumsBody fd |}).
Proof.
  destruct (negb (Force config) && String.eqb _ _) eqn:E.
  - left. split; [reflexivity|]. now apply checkHandler_not_modified.
  - right. split; [reflexivity|]. now apply checkHandler_fresh.
Qed.

(** Property X13: every reply of the [/check] handler is one of two: status
    304 with no header set by the handler (the validator is not repeated)
    and no body, sent only when [Force] is off and the token equals the
    validator; or status 200 with exactly the header [Etag] and the whole
    body. *)
Theorem not_modified_reply_is_bare config fd r :
  (http.status (serve_check config fd r) = 304 /\
   http.sentHeader (serve_check config fd r) = ∅ /\
   http.written (serve_check config fd r) = [] /\
   Force config = false /\
   http.Header_Get (http.Request_Header r) "If-None-Match"
   = ChecksumHeader fd) \/
  (http.status (serve_check config fd r) = 200 /\
   http.sentHeader (serve_check config fd r)
   = {[ "Etag" := [ChecksumHeader fd] ]} /\
   http.written (serve_check config fd r) = ChecksumsBody fd /\
   (Force config = true \/
    http.Header_Get (http.Request_Header r) "If-None-Match"
    <> ChecksumHeader fd)).
Proof.
  destruct (serve_check_cases config fd r) as [[Hc ->]|[Hc ->]];
    cbn [http.status http.sentHeader http.written].
  - left. apply andb_true_iff in Hc as [Hf He].
    apply negb_true_iff in Hf. apply String.eqb_eq in He. auto.
  - right. split; [reflexivity|]. split; [reflexivity|].
    split; [reflexivity|].
    apply andb_false_iff in Hc as [Hf|He].
    + left. now apply negb_false_iff in Hf.
    + right. now apply String.eqb_neq.
Qed.

Lemma string_app_longer (a b c : string) :
  a +:+ b +:+ c = b -> a = EmptyString /\ c = EmptyString.
Proof.
  intros H. apply (f_equal String.length) in H.
  rewrite !string_app_length in H.
  destruct a, c; simpl in H; try lia. auto.
Qed.

(** Property X14: the comparison is exact: the wildcard [*], a weak
    validator [W/...] and a list that contains the current validator among
    other text all get status 200 with the full body. *)
Theorem only_the_exact_validator_matches os config fs fd r :
  main os config fs = Listening fd ->
  http.Header_Get (http.Request_Header r) "If-None-Match" = "*" \/
  (exists pre post,
     (pre <> EmptyString \/ post <> EmptyString) /\
     http.Header_Get (http.Request_Header r) "If-None-Match"
     = pre +:+ ChecksumHeader fd +:+ post) ->
  http.status (serve_check config fd r) = 200 /\
  http.written (serve_check config fd r) = ChecksumsBody fd.
Proof.
  intros Hm Ht.
  destruct (serve_check_cases config fd r) as [[Hc ->]|[Hc ->]];
    [|split; reflexivity].
  apply andb_true_iff in Hc as [_ He]. apply String.eqb_eq in He.
  exfalso. destruct Ht as [Hs|(pre & post & Hp & Ht)].
  - pose proof (main_spec os config fs) as Hsp. rewrite Hm in Hsp.
    destruct Hsp as (_ & _ & Hh). rewrite <- He, Hs in Hh.
    unfold dquote in Hh. rewrite app_String in Hh. discriminate Hh.
  - rewrite Ht in He. apply string_app_longer in He as [-> ->].
    destruct Hp; congruence.
Qed.

Lemma only_exact_witness :
  main filepath.unix sample_config (Present hello_dir)
  = Listening hello_manifest /\
  (http.Header_Get (http.Request_Header weak_request) "If-None-Match" = "*"
   \/
   (exists pre post,
      (pre <> EmptyString \/ post <> EmptyString) /\
      http.Header_Get (http.Request_Header weak_request) "If-None-Match"
      = pre +:+ ChecksumHeader hello_manifest +:+ post)) /\
  http.status (serve_check sample_config hello_manifest weak_request) = 200 /\
  http.written (serve_check sample_config hello_manifest weak_request)
  = ChecksumsBody hello_manifest.
Proof.
  assert (Ht : http.Header_Get (http.Request_Header weak_request)
                 "If-None-Match" = "*" \/
               (exists pre post,
                  (pre <> EmptyString \/ post <> EmptyString) /\
                  http.Header_Get (http.Request_Header weak_request)
                    "If-None-Match"
                  = pre +:+ ChecksumHeader hello_manifest +:+ post)).
  { right. exists "W/", EmptyString.
    split; [left; discriminate|vm_compute; reflexivity]. }
  split; [vm_compute; reflexivity|]. split; [exact Ht|].
  apply (only_the_exact_validator_matches filepath.unix sample_config
           (Present hello_dir) hello_manifest weak_request);
    [vm_compute; reflexivity|exact Ht].
Defined.

(** Property X16: the validator a 200 reply hands out is accepted back:
    the same request repeated with that value under [If-None-Match] gets
    304 with an empty body when [Force] is off, and 200 with the body again
    when [Force] is on. *)
Theorem validator_round_trip config fd r :
  http.status (serve_check config fd r) = 200 ->
  let again := serve_check config fd (revalidate r (serve_check config fd r)) in
  if Force config
  then http.status again = 200 /\ http.written again = ChecksumsBody fd
  else http.status again = 304 /\ http.written again = [].
Proof.
  intros H200.
  assert (Hget : http.Header_Get
                   (http.Request_Header
                      (revalidate r (serve_check config fd r)))
                   "If-None-Match" = ChecksumHeader fd).
  { destruct (serve_check_cases config fd r) as [[Hc E]|[Hc E]].
    - rewrite E in H200. discriminate.
    - rewrite E. unfold revalidate. cbn [http.Request_Header http.sentHeader].
      rewrite Header_Get_Set. unfold http.Header_Get.
      change (http.CanonicalMIMEHeaderKey "If-None-Match")
        with "If-None-Match".
      now rewrite lookup_insert_eq. }
  cbv zeta.
  destruct (serve_check_cases config fd
              (revalidate r (serve_check config fd r))) as [[Hc ->]|[Hc ->]];
    rewrite Hget, String.eqb_refl, andb_true_r in Hc;
    destruct (Force config); try discriminate; split; reflexivity.
Qed.

Lemma validator_round_trip_witness :
  http.status (serve_check sample_config hello_manifest first_request) = 200
  /\
  let again :=
    serve_check sample_config hello_manifest
      (revalidate first_request
         (serve_check sample_config hello_manifest first_request)) in
  if Force sample_config
  then http.status again = 200 /\
       http.written again = ChecksumsBody hello_manifest
  else http.status again = 304 /\ http.written again = [].
Proof.
  split; [vm_compute; reflexivity|].
  apply (validator_round_trip sample_config hello_manifest first_request).
  vm_compute; reflexivity.
Defined.

(** ** Progress through the gate *)

Lemma count_witness f (l : list pc) :
  (0 < count f l)%nat -> exists j p, l !! j = Some p /\ f p = true.
Proof.
  induction l as [|x l IH]; simpl; intros H; [lia|].
  destruct (f x) eqn:E.
  - exists 0%nat, x. auto.
  - destruct (IH ltac:(lia)) as (j & p & Hj & Hp). exists (S j), p. auto.
Qed.

(** Property X17: behind a limiter of positive capacity a waiting request
    is never stuck: either it can enter at once, or another request holds a
    slot and can take its next step (leave the handler, or release and free
    a slot). *)
Theorem waiting_request_is_not_stuck max ch s i :
  concurrencyLimiter max = Some ch -> 0 < max ->
  rtc step (sys_init ch) s ->
  reqs s !! i = Some AtSend ->
  (exists s', step s s' /\ reqs s' !! i = Some InHandler) \/
  (exists j s',
     step s s' /\ j <> i /\
     ((reqs s !! j = Some InHandler /\ exists x, reqs s' !! j = Some (AtRecv x))
      \/
      (exists x, reqs s !! j = Some (AtRecv x) /\
                 reqs s' !! j = Some (Finished x) /\
                 chan_len (sem s') < chan_cap (sem s'))%nat)).
Proof.
  intros Hm Hpos Hr Hi. apply make_chan_Some in Hm as (_ & Hcap & Hlen).
  pose proof (gate_inv_reachable ch s Hlen Hr) as (Hc & Hl & Hb).
  destruct (Nat.lt_ge_cases (chan_len (sem s)) (chan_cap (sem s))) as [Hlt|Hge].
  - left. eexists. split; [apply (step_send s i Hi Hlt)|].
    cbn [reqs]. apply list_lookup_insert_eq. now apply lookup_lt_Some in Hi.
  - right.
    assert (Hh : (0 < holding s)%nat) by lia.
    apply count_witness in Hh as (j & p & Hj & Hp).
    assert (Hji : j <> i) by (intros ->; rewrite Hi in Hj; now injection Hj as <-).
    destruct p as [| |x|x]; try discriminate.
    + exists j. eexists. split; [apply (step_exit s j Returns Hj)|].
      split; [exact Hji|]. left. split; [exact Hj|]. exists Returns.
      cbn [reqs]. apply list_lookup_insert_eq. now apply lookup_lt_Some in Hj.
    + assert (Hp' : (0 < chan_len (sem s))%nat) by lia.
      exists j. eexists. split; [apply (step_recv s j x Hj Hp')|].
      split; [exact Hji|]. right. exists x. split; [exact Hj|].
      cbn [reqs sem set_len chan_len chan_cap]. split; [|lia].
      apply list_lookup_insert_eq. now apply lookup_lt_Some in Hj.
Qed.

Lemma waiting_request_witness :
  concurrencyLimiter 1 = Some one_slot /\ 0 < 1 /\
  rtc step (sys_init one_slot) one_in_one_waiting /\
  reqs one_in_one_waiting !! 1%nat = Some AtSend /\
  ((exists s', step one_in_one_waiting s' /\
               reqs s' !! 1%nat = Some InHandler) \/
   (exists j s',
      step one_in_one_waiting s' /\ j <> 1%nat /\
      ((reqs one_in_one_waiting !! j = Some InHandler /\
        exists x, reqs s' !! j = Some (AtRecv x))
       \/
       (exists x, reqs one_in_one_waiting !! j = Some (AtRecv x) /\
                  reqs s' !! j = Some (Finished x) /\
                  chan_len (sem s') < chan_cap (sem s'))%nat))).
Proof.
  split; [reflexivity|]. split; [lia|].
  split; [exact one_in_one_waiting_reachable|]. split; [reflexivity|].
  apply (waiting_request_is_not_stuck 1 one_slot one_in_one_waiting 1);
    [reflexivity|lia|exact one_in_one_waiting_reachable|reflexivity].
Defined.

(** One step moves a request at most one stage on and keeps the way it
    left the handler. *)
Lemma step_moves_forward s s' i p :
  step s s' -> reqs s !! i = Some p ->
  exists p',
    reqs s' !! i = Some p' /\
    (stage p <= stage p' <= S (stage p))%nat /\
    (forall x, left_by p = Some x -> left_by p' = Some x).
Proof.
  intros Hs Hi.
  assert (Hlt : (i < length (reqs s))%nat) by now apply lookup_lt_Some in Hi.
  assert (Hsame : exists p', Some p = Some p' /\
            (stage p <= stage p' <= S (stage p))%nat /\
            (forall x, left_by p = Some x -> left_by p' = Some x))
    by (exists p; repeat split; auto; lia).
  destruct Hs as [s|s k Hk _|s k j x Hk Hj _|s k x Hk|s k x Hk _]; cbn [reqs].
  - rewrite lookup_app_l by exact Hlt. now rewrite Hi.
  - destruct (decide (k = i)) as [->|Hne].
    + rewrite list_lookup_insert_eq by exact Hlt.
      rewrite Hk in Hi. injection Hi as <-.
      exists InHandler. repeat split; simpl; try lia. discriminate.
    + rewrite list_lookup_insert_ne by exact Hne. now rewrite Hi.
  - destruct (decide (j = i)) as [->|Hne].
    + rewrite list_lookup_insert_eq by (now rewrite length_insert).
      rewrite Hj in Hi. injection Hi as <-.
      exists (Finished x). repeat split; simpl; try lia. auto.
    + rewrite list_lookup_insert_ne by exact Hne.
      destruct (decide (k = i)) as [->|Hne'].
      * rewrite list_lookup_insert_eq by exact Hlt.
        rewrite Hk in Hi. injection Hi as <-.
        exists InHandler. repeat split; simpl; try lia. discriminate.
      * rewrite list_lookup_insert_ne by exact Hne'. now rewrite Hi.
  - destruct (decide (k = i)) as [->|Hne].
    + rewrite list_lookup_insert_eq by exact Hlt.
      rewrite Hk in Hi. injection Hi as <-.
      exists (AtRecv x). repeat split; simpl; try lia. discriminate.
    + rewrite list_lookup_insert_ne by exact Hne. now rewrite Hi.
  - destruct (decide (k = i)) as [->|Hne].
    + rewrite list_lookup_insert_eq by exact Hlt.
      rewrite Hk in Hi. injection Hi as <-.
      exists (Finished x). repeat split; simpl; try lia. auto.
    + rewrite list_lookup_insert_ne by exact Hne. now rewrite Hi.
Qed.

(** Property X18: along every run a request keeps its place and only moves
    forward (send, handler, deferred receive, done); once it has left the
    handler, the way it left (return or panic) stays as it was. *)
Theorem requests_only_move_forward s s' i p :
  rtc step s s' -> reqs s !! i = Some p ->
  exists p',
    reqs s' !! i = Some p' /\
    (stage p <= stage p')%nat /\
    (forall x, left_by p = Some x -> left_by p' = Some x).
Proof.
  intros Hr. revert p. induction Hr as [s|s s1 s' Hs _ IH]; intros p Hi.
  - exists p. repeat split; auto.
  - destruct (step_moves_forward s s1 i p Hs Hi) as (p1 & H1 & Hst & Hl).
    destruct (IH p1 H1) as (p' & H' & Hst' & Hl').
    exists p'. repeat split; [exact H'|lia|auto].
Qed.

Lemma requests_move_forward_witness :
  rtc step {| sem := one_slot; reqs := [AtSend; AtSend] |} one_in_one_waiting
  /\
  reqs {| sem := one_slot; reqs := [AtSend; AtSend] |} !! 0%nat = Some AtSend
  /\
  exists p',
    reqs one_in_one_waiting !! 0%nat = Some p' /\
    (stage AtSend <= stage p')%nat /\
    (forall x, left_by AtSend = Some x -> left_by p' = Some x).
Proof.
  assert (Hr : rtc step {| sem := one_slot; reqs := [AtSend; AtSend] |}
                 one_in_one_waiting).
  { apply rtc_once.
    apply (step_send {| sem := one_slot; reqs := [AtSend; AtSend] |} 0);
      [reflexivity|simpl; lia]. }
  split; [exact Hr|]. split; [reflexivity|].
  apply (requests_only_move_forward
           {| sem := one_slot; reqs := [AtSend; AtSend] |}
           one_in_one_waiting 0 AtSend Hr).
  reflexivity.
Defined.

(** ** Marker files and the outcome of the walk *)

Lemma walkDir_marker os config dir name o st :
  strings.HasSuffix name ".gitkeep" = true ->
  filepath.walkDir os (visit config) (filepath.Join os dir name) (File o) st
  = Done (None, st).
Proof.
  intros Hs. rewrite walkDir_File. unfold visit. simpl.
  destruct (Join_ends_with_name os dir name) as [pre ->].
  now rewrite (HasSuffix_app pre name ".gitkeep" Hs).
Qed.

(** The loop over a listing passes over a marker file. *)
Lemma range_dirs_marker os config path name o l2 : forall l1 st,
  strings.HasSuffix name ".gitkeep" = true ->
  filepath.range_dirs os (filepath.walkDir os (visit config)) path
    (l1 ++ (name, File o) :: l2) st
  = filepath.range_dirs os (filepath.walkDir os (visit config)) path
      (l1 ++ l2) st.
Proof.
  induction l1 as [|[n d] l1 IH]; intros st Hs.
  - rewrite !app_nil_l, range_dirs_cons. now rewrite walkDir_marker.
  - rewrite <- !app_comm_cons, !range_dirs_cons.
    destruct (filepath.walkDir _ _ _ _ _) as [[[e|] st1]|e|]; try reflexivity.
    now apply IH.
Qed.

(** Sorting a listing and dropping one entry is sorting the listing
    without it. *)
Lemma merge_sort_without (l1 l2 s1 s2 : list (string * node)) x :
  NoDup (map fst (l1 ++ x :: l2)) ->
  merge_sort filepath.name_le (l1 ++ x :: l2) = s1 ++ x :: s2 ->
  merge_sort filepath.name_le (l1 ++ l2) = s1 ++ s2.
Proof.
  intros Hn Hs.
  assert (Hp : s1 ++ s2 ≡ₚ l1 ++ l2).
  { apply (Permutation_cons_inv (a := x)).
    rewrite !Permutation_middle, <- Hs. apply merge_sort_Permutation. }
  assert (Hss : StronglySorted filepath.name_le (s1 ++ x :: s2))
    by (rewrite <- Hs; apply StronglySorted_merge_sort; apply _).
  assert (Hn2 : NoDup (map fst (l1 ++ l2))).
  { rewrite map_app in *. simpl in Hn.
    apply NoDup_app in Hn as (H1 & H12 & H2).
    apply NoDup_cons in H2 as [_ H2].
    apply NoDup_app. repeat split; try assumption.
    intros y Hy Hy2. apply (H12 y Hy). now right. }
  apply (StronglySorted_unique_strong filepath.name_le).
  - intros x1 x2 H1 H2 R12 R21.
    rewrite merge_sort_Permutation in H1. rewrite Hp in H2.
    apply (NoDup_fst_inj (l1 ++ l2)); try assumption.
    unfold filepath.name_le in *. now apply (anti_symm String.le).
  - apply StronglySorted_merge_sort; apply _.
  - apply StronglySorted_app in Hss as (H12 & H1 & H2).
    apply StronglySorted_cons in H2 as [_ H2].
    apply StronglySorted_app_2; try assumption.
    intros y1 y2 Hy1 Hy2. apply H12; [exact Hy1|now right].
  - now rewrite merge_sort_Permutation, Hp.
Qed.

(** Property X11: a marker file in a directory, whatever it holds and even
    when it cannot be opened, changes nothing in the walk over that
    directory: same result, same manifest state, same error. *)
Theorem marker_file_does_not_change_the_walk
    os config path l1 l2 name o rderr st :
  strings.HasSuffix name ".gitkeep" = true ->
  NoDup (map fst (l1 ++ (name, File o) :: l2)) ->
  filepath.walkDir os (visit config) path
    (filepath.sorted_view (Dir (l1 ++ (name, File o) :: l2) rderr)) st
  = filepath.walkDir os (visit config) path
      (filepath.sorted_view (Dir (l1 ++ l2) rderr)) st.
Proof.
  intros Hs Hn. rewrite !sorted_view_Dir_eq, !walkDir_Dir.
  destruct rderr as [e|]; [reflexivity|].
  rewrite !map_app. cbn [map].
  change (view_entry (name, File o)) with (name, File o).
  assert (Hin : (name, File o)
                ∈ merge_sort filepath.name_le
                    (map view_entry l1 ++ (name, File o) :: map view_entry l2)).
  { rewrite merge_sort_Permutation. apply elem_of_app. right. now left. }
  apply list_elem_of_split in Hin as (s1 & s2 & Hsplit).
  rewrite Hsplit.
  rewrite (merge_sort_without (map view_entry l1) (map view_entry l2) s1 s2
             (name, File o)); [now apply range_dirs_marker| |exact Hsplit].
  rewrite map_app in *. cbn [map fst] in *. now rewrite !map_fst_view.
Qed.

Lemma marker_file_witness :
  strings.HasSuffix "notes.gitkeep" ".gitkeep" = true /\
  NoDup (map fst ([("b.bin", File (Opened hello None))] ++
                  ("notes.gitkeep", File unreadable) ::
                  [("a.txt", File (Opened hello None))])) /\
  filepath.walkDir filepath.unix (visit sample_config) "/srv/game"
    (filepath.sorted_view
       (Dir ([("b.bin", File (Opened hello None))] ++
             ("notes.gitkeep", File unreadable) ::
             [("a.txt", File (Opened hello None))]) None))
    {| folderData := folderData_zero; hasher := sha256.New |}
  = filepath.walkDir filepath.unix (visit sample_config) "/srv/game"
      (filepath.sorted_view
         (Dir ([("b.bin", File (Opened hello None))] ++
               [("a.txt", File (Opened hello None))]) None))
      {| folderData := folderData_zero; hasher := sha256.New |}.
Proof.
  assert (Hn : NoDup (map fst ([("b.bin", File (Opened hello None))] ++
                  ("notes.gitkeep", File unreadable) ::
                  [("a.txt", File (Opened hello None))]))).
  { apply (bool_decide_unpack _). vm_compute. exact I. }
  split; [reflexivity|]. split; [exact Hn|].
  apply (marker_file_does_not_change_the_walk filepath.unix sample_config
           "/srv/game" [("b.bin", File (Opened hello None))]
           [("a.txt", File (Opened hello None))] "notes.gitkeep" unreadable
           None);
    [reflexivity|exact Hn].
Defined.

(** ** The first value of a repeated header *)

(** Property X15: when [If-None-Match] has several values, the first one
    alone decides between 304 and 200. *)
Theorem first_header_value_decides config fd r v vs :
  http.Request_Header r !! "If-None-Match" = Some (v :: vs) ->
  (http.status (serve_check config fd r) = 304 <->
   Force config = false /\ v = ChecksumHeader fd) /\
  (http.status (serve_check config fd r) = 200 <->
   Force config = true \/ v <> ChecksumHeader fd).
Proof.
  intros Hv.
  assert (Hget : http.Header_Get (http.Request_Header r) "If-None-Match" = v).
  { unfold http.Header_Get.
    change (http.CanonicalMIMEHeaderKey "If-None-Match") with "If-None-Match".
    now rewrite Hv. }
  destruct (serve_check_cases config fd r) as [[Hc ->]|[Hc ->]];
    rewrite Hget in Hc; cbn [http.status].
  - apply andb_true_iff in Hc as [Hf He].
    apply negb_true_iff in Hf. apply String.eqb_eq in He.
    split; split; auto; try discriminate.
    intros [Ht|Hne]; congruence.
  - apply andb_false_iff in Hc.
    assert (Hd : Force config = true \/ v <> ChecksumHeader fd).
    { destruct Hc as [Hf|He]; [left; now apply negb_false_iff in Hf|].
      right. now apply String.eqb_neq. }
    split; split; auto; try discriminate.
    intros [Hf Hv']. destruct Hd; congruence.
Qed.

Lemma first_header_value_witness :
  http.Request_Header double_request !! "If-None-Match"
  = Some [dquote +:+ "stale" +:+ dquote; ChecksumHeader hello_manifest] /\
  (http.status (serve_check sample_config hello_manifest double_request) = 304
   <->
   Force sample_config = false /\
   dquote +:+ "stale" +:+ dquote = ChecksumHeader hello_manifest) /\
  (http.status (serve_check sample_config hello_manifest double_request) = 200
   <->
   Force sample_config = true \/
   dquote +:+ "stale" +:+ dquote <> ChecksumHeader hello_manifest).
Proof.
  split; [vm_compute; reflexivity|].
  apply (first_header_value_decides sample_config hello_manifest double_request
           (dquote +:+ "stale" +:+ dquote) [ChecksumHeader hello_manifest]).
  vm_compute; reflexivity.
Defined.

(** ** A drained gate *)

Lemma count_none f (l : list pc) :
  (forall i p, l !! i = Some p -> f p = false) -> count f l = 0%nat.
Proof.
  induction l as [|x l IH]; intros H; [reflexivity|]. simpl.
  rewrite (H 0%nat x eq_refl). apply IH.
  intros i p Hi. apply (H (S i) p Hi).
Qed.

(** Property X19: behind a limiter of positive capacity, when no request
    is in the handler or about to release, the channel is empty and every
    waiting request can enter at once. *)
Theorem drained_gate_is_free max ch s :
  concurrencyLimiter max = Some ch -> 0 < max ->
  rtc step (sys_init ch) s ->
  (forall i p, reqs s !! i = Some p ->
     p = AtSend \/ exists x, p = Finished x) ->
  chan_len (sem s) = 0%nat /\
  forall i, reqs s !! i = Some AtSend ->
    exists s', step s s' /\ reqs s' !! i = Some InHandler.
Proof.
  intros Hm Hpos Hr Hidle. apply make_chan_Some in Hm as (_ & Hcap & Hlen).
  pose proof (gate_inv_reachable ch s Hlen Hr) as (Hc & Hl & Hb).
  assert (H0 : chan_len (sem s) = 0%nat).
  { rewrite Hl. unfold holding. apply count_none. intros i p Hi.
    destruct (Hidle i p Hi) as [->|[x ->]]; reflexivity. }
  split; [exact H0|]. intros i Hi.
  assert (Hlt : (chan_len (sem s) < chan_cap (sem s))%nat) by lia.
  eexists. split; [apply (step_send s i Hi Hlt)|].
  cbn [reqs]. apply list_lookup_insert_eq. now apply lookup_lt_Some in Hi.
Qed.

Lemma drained_reachable : rtc step (sys_init one_slot) drained.
Proof.
  apply (rtc_l _ _ {| sem := one_slot; reqs := [AtSend] |});
    [exact (step_arrive (sys_init one_slot))|].
  apply (rtc_l _ _ {| sem := one_slot; reqs := [AtSend; AtSend] |});
    [exact (step_arrive {| sem := one_slot; reqs := [AtSend] |})|].
  apply (rtc_l _ _ {| sem := one_slot; reqs := [AtSend; AtSend; AtSend] |});
    [exact (step_arrive {| sem := one_slot; reqs := [AtSend; AtSend] |})|].
  apply (rtc_l _ _ {| sem := {| chan_cap := 1; chan_len := 1 |};
                      reqs := [InHandler; AtSend; AtSend] |}).
  { apply (step_send {| sem := one_slot; reqs := [AtSend; AtSend; AtSend] |}
             0); [reflexivity|simpl; lia]. }
  apply (rtc_l _ _ {| sem := {| chan_cap := 1; chan_len := 1 |};
                      reqs := [AtRecv Returns; AtSend; AtSend] |}).
  { apply (step_exit {| sem := {| chan_cap := 1; chan_len := 1 |};
                        reqs := [InHandler; AtSend; AtSend] |} 0 Returns).
    reflexivity. }
  apply (rtc_l _ _ {| sem := one_slot;
                      reqs := [Finished Returns; AtSend; AtSend] |}).
  { apply (step_recv {| sem := {| chan_cap := 1; chan_len := 1 |};
                        reqs := [AtRecv Returns; AtSend; AtSend] |} 0 Returns);
      [reflexivity|simpl; lia]. }
  apply (rtc_l _ _ {| sem := {| chan_cap := 1; chan_len := 1 |};
                      reqs := [Finished Returns; InHandler; AtSend] |}).
  { apply (step_send {| sem := one_slot;
                        reqs := [Finished Returns; AtSend; AtSend] |} 1);
      [reflexivity|simpl; lia]. }
  apply (rtc_l _ _ {| sem := {| chan_cap := 1; chan_len := 1 |};
                      reqs := [Finished Returns; AtRecv Panics; AtSend] |}).
  { apply (step_exit {| sem := {| chan_cap := 1; chan_len := 1 |};
                        reqs := [Finished Returns; InHandler; AtSend] |}
             1 Panics).
    reflexivity. }
  apply rtc_once.
  apply (step_recv {| sem := {| chan_cap := 1; chan_len := 1 |};
                      reqs := [Finished Returns; AtRecv Panics; AtSend] |}
           1 Panics); [reflexivity|simpl; lia].
Defined.

Lemma drained_idle i p :
  reqs drained !! i = Some p -> p = AtSend \/ exists x, p = Finished x.
Proof.
  destruct i as [|[|[|i]]]; simpl; intros [= <-]; eauto.
Defined.

Lemma drained_gate_witness :
  concurrencyLimiter 1 = Some one_slot /\ 0 < 1 /\
  rtc step (sys_init one_slot) drained /\
  (forall i p, reqs drained !! i = Some p ->
     p = AtSend \/ exists x, p = Finished x) /\
  chan_len (sem drained) = 0%nat /\
  forall i, reqs drained !! i = Some AtSend ->
    exists s', step drained s' /\ reqs s' !! i = Some InHandler.
Proof.
  split; [reflexivity|]. split; [lia|]. split; [exact drained_reachable|].
  split; [exact drained_idle|].
  apply (drained_gate_is_free 1 one_slot drained);
    [reflexivity|lia|exact drained_reachable|exact drained_idle].
Defined.

(** ** The exclusion test on paths and on names *)

Lemma has_char_app c (a b : string) :
  has_char c (a +:+ b) = has_char c a || has_char c b.
Proof.
  induction a as [|x a IH]; [reflexivity|].
  rewrite app_String. simpl. rewrite IH. now rewrite orb_assoc.
Qed.

Lemma from_app_le (k : nat) : forall a b : string,
  (k <= String.length a)%nat ->
  strings.from k (a +:+ b) = strings.from k a +:+ b.
Proof.
  induction k as [|k IH]; intros a b H; [reflexivity|].
  destruct a as [|x a]; simpl in H; [lia|].
  rewrite app_String. simpl. apply IH. lia.
Qed.

Lemma HasSuffix_app_eq (a b suffix : string) :
  (String.length suffix <= String.length b)%nat ->
  strings.HasSuffix (a +:+ b) suffix = strings.HasSuffix b suffix.
Proof.
  intros H. unfold strings.HasSuffix. rewrite string_app_length.
  replace (String.length a + String.length b - String.length suffix)%nat
    with (String.length a + (String.length b - String.length suffix))%nat
    by lia.
  rewrite from_app_skip.
  destruct (Nat.leb_spec (String.length suffix) (String.length b)); [|lia].
  destruct (Nat.leb_spec (String.length suffix)
              (String.length a + String.length b)); [reflexivity|lia].
Qed.

(** A suffix without the separator lies inside the last component. *)
Lemma HasSuffix_behind_separator c (pre name suffix : string) :
  has_char c suffix = false ->
  strings.HasSuffix (pre +:+ String c name) suffix
  = strings.HasSuffix name suffix.
Proof.
  intros Hc.
  destruct (Nat.le_gt_cases (String.length suffix) (String.length name))
    as [Hle|Hgt].
  - change (String c name) with (String c EmptyString +:+ name).
    rewrite <- string_app_assoc. now apply HasSuffix_app_eq.
  - transitivity false.
    + unfold strings.HasSuffix.
      destruct (Nat.leb_spec (String.length suffix)
                  (String.length (pre +:+ String c name))) as [Hl|Hl];
        [|reflexivity].
      rewrite string_app_length in *. simpl in *.
      rewrite from_app_le by lia. simpl.
      apply String.eqb_neq. intros E.
      rewrite <- E, has_char_app in Hc. simpl in Hc.
      rewrite Ascii.eqb_refl in Hc. simpl in Hc.
      now rewrite orb_true_r in Hc.
    + unfold strings.HasSuffix.
      destruct (Nat.leb_spec (String.length suffix) (String.length name));
        [lia|reflexivity].
Qed.

Lemma Join_shape os path name :
  path <> EmptyString ->
  exists pre c,
    (c = "/"%char \/ c = "092"%char) /\
    filepath.Join os path name = pre +:+ String c name.
Proof.
  intros Hne. unfold filepath.Join.
  destruct path as [|x path]; [congruence|].
  destruct (strings.HasSuffix (String x path) (filepath.Separator os)) eqn:E.
  - unfold strings.HasSuffix in E. apply andb_true_iff in E as [_ E].
    apply String.eqb_eq in E.
    assert (Hsplit : forall (k : nat) (s : string),
              exists a, s = a +:+ strings.from k s).
    { induction k as [|k IH]; intros s; [now exists EmptyString|].
      destruct s as [|y s]; [now exists EmptyString|].
      destruct (IH s) as [a Ha]. exists (String y a).
      rewrite app_String. simpl. now rewrite <- Ha. }
    destruct (Hsplit (String.length (String x path)
                      - String.length (filepath.Separator os))%nat
                (String x path)) as [a Ha].
    rewrite E in Ha. rewrite Ha.
    destruct os; [exists a, "/"%char|exists a, "092"%char];
      (split; [auto|]); now rewrite string_app_assoc.
  - destruct os; [exists (String x path), "/"%char
                 |exists (String x path), "092"%char]; auto.
Qed.

(** Property X10: the exclusion test the callback makes on the full path
    gives the same answer as the test on the entry name alone, for every
    directory path and every name. *)
Theorem exclusion_test_is_on_the_name os path name :
  strings.HasSuffix (filepath.Join os path name) ".gitkeep"
  = strings.HasSuffix name ".gitkeep".
Proof.
  destruct path as [|x path]; [reflexivity|].
  destruct (Join_shape os (String x path) name) as (pre & c & Hc & ->);
    [discriminate|].
  apply HasSuffix_behind_separator.
  destruct Hc as [-> | ->]; reflexivity.
Qed.

(** ** The order of the lines of a flat folder *)

Lemma plain_file_view nc : plain_file nc -> plain_file (view_entry nc).
Proof.
  intros (Hn & Hs & data & Hd). destruct nc as [n d]. simpl in *. subst d.
  repeat split; try apply Hn; try exact Hs. now exists data.
Qed.

Lemma sorted_names (l : list (string * node)) :
  map fst (merge_sort filepath.name_le l) = merge_sort String.le (map fst l).
Proof.
  apply (StronglySorted_unique String.le).
  - apply (StronglySorted_fmap fst filepath.name_le String.le).
    + intros x y H. exact H.
    + apply StronglySorted_merge_sort; apply _.
  - apply StronglySorted_merge_sort; apply _.
  - rewrite !merge_sort_Permutation. reflexivity.
Qed.

Lemma plain_file_entries os config (l : list (string * node)) :
  GameFolder config <> EmptyString ->
  strings.HasSuffix (GameFolder config) (filepath.Separator os) = false ->
  Forall plain_file l ->
  map relativePath
    (flat_map (fun nc => entries_of os config
                           (filepath.Join os (GameFolder config) (fst nc))
                           (snd nc)) l)
  = map (String.append slash) (map fst l).
Proof.
  intros Hne Hs. induction 1 as [|[n d] l (Hn & Hm & data & Hd) _ IH];
    [reflexivity|].
  simpl in Hn, Hm, Hd. subst d. cbn [flat_map map fst snd].
  rewrite map_app, IH. f_equal. cbn [entries_of].
  assert (Hj : strings.HasSuffix
                 (filepath.Join os (GameFolder config) n) ".gitkeep" = false).
  { destruct (Join_shape os (GameFolder config) n Hne) as (pre & c & Hc & ->).
    rewrite HasSuffix_behind_separator; [exact Hm|].
    destruct Hc as [-> | ->]; reflexivity. }
  rewrite Hj. cbn [map relativePath]. f_equal.
  assert (Hn1 : Forall plain_name [n]) by (constructor; [exact Hn|constructor]).
  pose proof (fold_Join_plain os (GameFolder config) [n] EmptyString Hne) as H.
  rewrite !string_app_Empty_r in H. rewrite app_Empty in H.
  cbn [fold_left] in H. rewrite (H Hs Hn1).
  unfold rel_of.
  rewrite TrimPrefix_app, ReplaceAll_backslash, (replace_rooted os [n] Hn1).
  cbn [rooted fold_right]. now rewrite string_app_Empty_r.
Qed.

(** Property X12: for a game folder that holds only readable files under
    plain names, the relative paths of the manifest are [/name] in
    ascending byte order of the names, in whatever order the operating
    system enumerates them. *)
Theorem flat_folder_lines_follow_the_names os config l rderr :
  GameFolder config <> EmptyString ->
  strings.HasSuffix (GameFolder config) (filepath.Separator os) = false ->
  Forall plain_file l ->
  map relativePath (manifest_entries os config (Present (Dir l rderr)))
  = map (String.append slash) (merge_sort String.le (map fst l)).
Proof.
  intros Hne Hs Hl. unfold manifest_entries.
  rewrite sorted_view_Dir_eq. cbn [entries_of].
  rewrite plain_file_entries; [|exact Hne|exact Hs|].
  - now rewrite sorted_names, map_fst_view.
  - rewrite merge_sort_Permutation. apply Forall_fmap.
    eapply Forall_impl; [exact Hl|]. intros nc Hnc. now apply plain_file_view.
Qed.

Lemma flat_listing_plain : Forall plain_file flat_listing.
Proof.
  repeat constructor; try discriminate; eexists; reflexivity.
Defined.

Lemma flat_folder_witness :
  GameFolder sample_config <> EmptyString /\
  strings.HasSuffix (GameFolder sample_config)
    (filepath.Separator filepath.unix) = false /\
  Forall plain_file flat_listing /\
  map relativePath
    (manifest_entries filepath.unix sample_config
       (Present (Dir flat_listing None)))
  = map (String.append slash) (merge_sort String.le (map fst flat_listing)).
Proof.
  split; [discriminate|]. split; [reflexivity|].
  split; [exact flat_listing_plain|].
  apply (flat_folder_lines_follow_the_names filepath.unix sample_config
           flat_listing None);
    [discriminate|reflexivity|exact flat_listing_plain].
Defined.
